(** * Arabic NLP preprocessing pipeline ([nlp_ar_prep.py])

    A shallow embedding of the pure functions of the pipeline and of the
    library calls they are built from, followed by the properties stated
    for them.

    Python strings are sequences of Unicode code points: a character is
    its code point ([Z]) and a string is a list of characters. *)

From Stdlib Require Import ZArith Lia Reals Lra Ascii String SpecFloat.
From stdpp Require Import gmap list sorting.

Local Open Scope Z_scope.

Abbreviation char := Z (only parsing).
Abbreviation str := (list Z) (only parsing).

(** ** Character classes *)

(** [lo-hi] inside a bracket expression. *)
Definition in_range (lo hi c : Z) : bool := (lo <=? c) && (c <=? hi).

(** A bracket expression listing single characters. *)
Definition one_of (cs : list Z) (c : Z) : bool := existsb (Z.eqb c) cs.

(** ** [re.sub] for a pattern that is one character class

    Every character of the class is one match (matches are found left to
    right and do not overlap); each is replaced by [repl]. *)
Fixpoint re_sub (cls : Z → bool) (repl : str) (text : str) : str :=
  match text with
  | [] => []
  | c :: rest =>
      if cls c then repl ++ re_sub cls repl rest
      else c :: re_sub cls repl rest
  end.

(** ** Normalization *)

(** [AR_DIACRITICS]: the class [U+0617-U+061A U+064B-U+0652]. *)
Definition AR_DIACRITICS (c : Z) : bool :=
  in_range 0x0617 0x061A c || in_range 0x064B 0x0652 c.

(** [AR_TATWEEL]: the single character U+0640. *)
Definition AR_TATWEEL (c : Z) : bool := c =? 0x0640.

Definition ALEF_MADDA : Z := 0x0622.
Definition ALEF_HAMZA_ABOVE : Z := 0x0623.
Definition WAW_HAMZA : Z := 0x0624.
Definition ALEF_HAMZA_BELOW : Z := 0x0625.
Definition YEH_HAMZA : Z := 0x0626.
Definition ALEF : Z := 0x0627.
Definition TEH_MARBUTA : Z := 0x0629.
Definition HEH : Z := 0x0647.
Definition WAW : Z := 0x0648.
Definition ALEF_MAKSURA : Z := 0x0649.
Definition YEH : Z := 0x064A.

Definition normalize_arabic (text : str) (convert_ta_marbuta : bool) : str :=
  let text := re_sub AR_DIACRITICS [] text in
  let text := re_sub AR_TATWEEL [] text in
  let text :=
    re_sub (one_of [ALEF_HAMZA_BELOW; ALEF_HAMZA_ABOVE; ALEF_MADDA; ALEF])
           [ALEF] text in
  let text := re_sub (one_of [ALEF_MAKSURA]) [YEH] text in
  let text := re_sub (one_of [WAW_HAMZA]) [WAW] text in
  let text := re_sub (one_of [YEH_HAMZA]) [YEH] text in
  if convert_ta_marbuta
  then re_sub (one_of [TEH_MARBUTA]) [HEH] text
  else text.

(** ** Regular expressions: the fragment the module's patterns use

    A backtracking matcher in the style of [re]: a state is the character
    before the current position (if any) and the rest of the text; matching
    a pattern in a state gives the states after every way it can match, in
    the order the engine tries them, so the first one is the match that
    [re] reports. *)

Inductive regex :=
  | Boundary (word : Z → bool)        (* [\b], for the given word class *)
  | Lit (c : Z)                       (* a literal character *)
  | Repeat (cls : Z → bool) (lo : nat) (hi : option nat)
                                      (* greedy [cls{lo,hi}]; no [hi]: unbounded *)
  | Seq (r1 r2 : regex)
  | Opt (r : regex).                  (* greedy [(?:r)?] *)

Fixpoint concat_re (r : regex) (rs : list regex) : regex :=
  match rs with
  | [] => r
  | r' :: rs' => Seq r (concat_re r' rs')
  end.

Abbreviation mstate := (option Z * list Z)%type (only parsing).

Definition at_boundary (word : Z → bool) (prev : option Z) (rest : str) : bool :=
  xorb (from_option word false prev) (from_option word false (head rest)).

Fixpoint repeat_matches (cls : Z → bool) (lo : nat) (hi : option nat)
    (prev : option Z) (rest : str) : list mstate :=
  match rest with
  | c :: rest' =>
      if cls c then
        match hi with
        | Some O => []
        | Some (S h) => repeat_matches cls (pred lo) (Some h) (Some c) rest'
        | None => repeat_matches cls (pred lo) None (Some c) rest'
        end
      else []
  | [] => []
  end ++ match lo with O => [(prev, rest)] | S _ => [] end.

Fixpoint matches (r : regex) (st : mstate) : list mstate :=
  match r with
  | Boundary word => if at_boundary word st.1 st.2 then [st] else []
  | Lit c =>
      match st.2 with
      | c' :: rest' => if c' =? c then [(Some c', rest')] else []
      | [] => []
      end
  | Repeat cls lo hi => repeat_matches cls lo hi st.1 st.2
  | Seq r1 r2 => flat_map (matches r2) (matches r1 st)
  | Opt r' => matches r' st ++ [st]
  end.

Record re_match := { m_start : Z; m_end : Z; m_group : list Z }.

(** [re.finditer]: scan left to right; at each position not inside the
    previous match try the pattern, and resume after a match.  [skip] is
    the number of characters of the previous match still to step over.
    (None of the module's patterns matches the empty string.) *)
Fixpoint finditer_from (r : regex) (skip : nat) (pos : Z) (prev : option Z)
    (rest : str) : list re_match :=
  match skip with
  | S k =>
      match rest with
      | c :: rest' => finditer_from r k (pos + 1) (Some c) rest'
      | [] => []
      end
  | O =>
      match head (matches r (prev, rest)) with
      | Some (_, after) =>
          let n := (length rest - length after)%nat in
          {| m_start := pos; m_end := pos + Z.of_nat n; m_group := take n rest |}
          :: match rest with
             | c :: rest' => finditer_from r (pred n) (pos + 1) (Some c) rest'
             | [] => []
             end
      | None =>
          match rest with
          | c :: rest' => finditer_from r O (pos + 1) (Some c) rest'
          | [] => []
          end
      end
  end.

Definition finditer (r : regex) (text : str) : list re_match :=
  finditer_from r O 0 None text.

(** [re.findall] for a pattern without capturing groups. *)
Definition findall (r : regex) (text : str) : list (list Z) :=
  map m_group (finditer r text).

(** ** Tokenization *)

(** The class of [AR_LETTERS = r"[U+0621-U+063A U+0641-U+064A]+"]. *)
Definition AR_LETTER (c : Z) : bool :=
  in_range 0x0621 0x063A c || in_range 0x0641 0x064A c.

Definition AR_LETTERS : regex := Repeat AR_LETTER 1 None.

Definition tokenize_ar (text : str) : list (list Z) := findall AR_LETTERS text.

(** ** Regex utilities *)

Section UnicodeData.

(** [\d] and [\w] of a [str] pattern follow the Unicode database
    ([str.isdecimal], [str.isalnum] or underscore).  On ASCII the classes
    are the familiar ones; beyond ASCII they are taken from the database,
    which is a parameter here. *)
Variable isdecimal_beyond_ascii : Z → bool.
Variable isalnum_beyond_ascii : Z → bool.

Definition is_digit (c : Z) : bool :=
  if c <? 128 then in_range 48 57 c else isdecimal_beyond_ascii c.

Definition is_word (c : Z) : bool :=
  if c <? 128
  then in_range 48 57 c || in_range 65 90 c || in_range 97 122 c || (c =? 95)
  else isalnum_beyond_ascii c.

Definition digits (lo : nat) (hi : option nat) : regex := Repeat is_digit lo hi.
Definition wb : regex := Boundary is_word.

(** [DATE_ISO = r"\b\d{4}-\d{2}-\d{2}\b"] *)
Definition DATE_ISO : regex :=
  concat_re wb [digits 4 (Some 4%nat); Lit 45; digits 2 (Some 2%nat); Lit 45;
                digits 2 (Some 2%nat); wb].

(** [DATE_SL = r"\b\d{1,2}/\d{1,2}/\d{4}\b"] *)
Definition DATE_SL : regex :=
  concat_re wb [digits 1 (Some 2%nat); Lit 47; digits 1 (Some 2%nat); Lit 47;
                digits 4 (Some 4%nat); wb].

(** [NUM_RE = r"\b\d+(?:\.\d+)?\b"] *)
Definition NUM_RE : regex :=
  concat_re wb [digits 1 None; Opt (Seq (Lit 46) (digits 1 None)); wb].

Definition extract_dates (text : str) : list (list Z) :=
  findall DATE_ISO text ++ findall DATE_SL text.

Definition _find_spans (pattern : regex) (text : str) : list (Z * Z) :=
  map (λ m, (m_start m, m_end m)) (finditer pattern text).

(** [any(ds <= s < de for (ds, de) in date_spans)] *)
Definition in_some_span (s : Z) (spans : list (Z * Z)) : bool :=
  existsb (λ span, (span.1 <=? s) && (s <? span.2)) spans.

Definition extract_numbers_excluding_dates (text : str) : list (list Z) :=
  let date_spans := _find_spans DATE_ISO text ++ _find_spans DATE_SL text in
  fold_left
    (λ nums m,
       let s := m_start m in
       if negb (in_some_span s date_spans) then nums ++ [m_group m] else nums)
    (finditer NUM_RE text) [].

End UnicodeData.

(** ASCII text written as a Rocq string. *)
Definition ascii_str (s : String.string) : list Z :=
  map (λ a, Z.of_nat (Ascii.nat_of_ascii a)) (String.list_ascii_of_string s).

(** What the seven passes do to one character. *)
Definition normalize_char (convert_ta_marbuta : bool) (c : Z) : str :=
  normalize_arabic [c] convert_ta_marbuta.

(** The check that a second normalization leaves the image of one
    character alone. *)
Definition idempotent_on (p : bool) (c : Z) : bool :=
  bool_decide (normalize_arabic (normalize_char p c) p = normalize_char p c).

(** ** Stopwords *)

(** [str.isspace] on one character: the Unicode whitespace characters. *)
Definition is_space (c : Z) : bool :=
  in_range 0x09 0x0D c || in_range 0x1C 0x20 c || (c =? 0x85) || (c =? 0xA0)
  || (c =? 0x1680) || in_range 0x2000 0x200A c || (c =? 0x2028)
  || (c =? 0x2029) || (c =? 0x202F) || (c =? 0x205F) || (c =? 0x3000).

Fixpoint lstrip (s : str) : str :=
  match s with
  | c :: rest => if is_space c then lstrip rest else s
  | [] => []
  end.

Definition rstrip (s : str) : str := reverse (lstrip (reverse s)).

(** [str.strip()] *)
Definition strip (s : str) : str := rstrip (lstrip s).

(** [str.split(sep)] for a one-character separator. *)
Fixpoint split (sep : Z) (s : str) : list (list Z) :=
  match s with
  | [] => [[]]
  | c :: rest =>
      if c =? sep then [] :: split sep rest
      else match split sep rest with
           | piece :: pieces => (c :: piece) :: pieces
           | [] => [[c]]
           end
  end.

Definition COMMA : Z := 44.

Section Stopwords.

(** [AR_STOPWORDS_RAW = set(stopwords.words("arabic"))]: the lexicon is data
    of the NLTK corpus, a parameter here. *)
Variable AR_STOPWORDS_RAW : gset (list Z).

Definition build_stopwords (convert_ta_marbuta : bool) (extra : str)
    : gset (list Z) :=
  let base : gset (list Z) :=
    set_map (λ w, normalize_arabic w convert_ta_marbuta) AR_STOPWORDS_RAW in
  let extra_items : gset (list Z) :=
    list_to_set
      (map strip
         (filter (λ w, strip w ≠ [])
                 (match extra with [] => [] | _ => split COMMA extra end))) in
  let extra_norm : gset (list Z) :=
    set_map (λ w, normalize_arabic w convert_ta_marbuta) extra_items in
  base ∪ extra_norm.

End Stopwords.

(** [[t for t in tokens if t not in stop_set and len(t) >= min_len]] *)
Fixpoint remove_stopwords (tokens : list (list Z)) (stop_set : gset (list Z))
    (min_len : Z) : list (list Z) :=
  match tokens with
  | [] => []
  | t :: rest =>
      if bool_decide (t ∉ stop_set) && (Z.of_nat (length t) >=? min_len)
      then t :: remove_stopwords rest stop_set min_len
      else remove_stopwords rest stop_set min_len
  end.

(** ** Sorting, as [sorted] and [list.sort] do it

    A stable sort.  [goes_after x y] says that [y], met later in the
    input than [x], has to be placed before it: for an ascending sort that
    is [key y < key x], with [reverse=True] it is [key x < key y].  Equal
    keys never swap, so the input order of ties is kept either way. *)
Section Sorted.
Context {A : Type} (goes_after : A → A → bool).

Fixpoint insert_sorted (x : A) (l : list A) : list A :=
  match l with
  | [] => [x]
  | y :: l' => if goes_after x y then y :: insert_sorted x l' else x :: l
  end.

Definition sorted (l : list A) : list A := foldr insert_sorted [] l.

End Sorted.

(** ** [collections.Counter]

    A dict keeps its keys in insertion order: an association list, where
    assigning to a present key keeps its place and a new key goes last. *)
Section Dict.
Context {K : Type} `{EqDecision K}.

Fixpoint dict_get (d : list (K * Z)) (k : K) (default : Z) : Z :=
  match d with
  | [] => default
  | (k', v) :: d' => if decide (k' = k) then v else dict_get d' k default
  end.

Fixpoint dict_set (d : list (K * Z)) (k : K) (v : Z) : list (K * Z) :=
  match d with
  | [] => [(k, v)]
  | (k', v') :: d' =>
      if decide (k' = k) then (k', v) :: d' else (k', v') :: dict_set d' k v
  end.

(** [for elem in iterable: mapping[elem] = mapping_get(elem, 0) + 1] *)
Definition _count_elements (mapping : list (K * Z)) (iterable : list K)
    : list (K * Z) :=
  fold_left (λ m elem, dict_set m elem (dict_get m elem 0 + 1)) iterable mapping.

Definition Counter (iterable : list K) : list (K * Z) :=
  _count_elements [] iterable.

(** [max(it, key=key)]: the first of the maximal elements. *)
Definition max_by {A} (key : A → Z) (first : A) (others : list A) : A :=
  fold_left (λ best x, if key best <? key x then x else best) others first.

(** [sorted(iterable, key=key, reverse=True)] *)
Definition sorted_desc {A} (key : A → Z) (l : list A) : list A :=
  sorted (λ x y, key x <? key y) l.

(** [heapq.nlargest(n, iterable, key=key)] for a sized iterable.  The two
    shortcuts are as in the library.  In the general case the library keeps
    a heap of the [n] largest triples [(key, -index, element)] and returns
    them in decreasing order: the [n] first elements of the stable
    decreasing sort, and nothing at all when [n <= 0]. *)
Definition nlargest {A} (n : Z) (iterable : list A) (key : A → Z) : list A :=
  if n =? 1 then
    match iterable with
    | [] => []
    | x :: rest => [max_by key x rest]
    end
  else if n >=? Z.of_nat (length iterable) then
    take (Z.to_nat n) (sorted_desc key iterable)
  else if n <=? 0 then []
  else take (Z.to_nat n) (sorted_desc key iterable).

(** [Counter.most_common(n)] with [n] given. *)
Definition most_common (c : list (K * Z)) (n : Z) : list (K * Z) :=
  nlargest n c snd.

End Dict.

(** [freq = Counter(no_stop).most_common(args.topk)] *)
Definition top_frequent (no_stop : list (list Z)) (topk : Z)
    : list (list Z * Z) :=
  most_common (Counter no_stop) topk.

(** ** NLTK collocations

    [nltk.probability.FreqDist] is a [Counter]; [N()] is the sum of its
    counts, [B()] the number of its keys, and iterating over it yields the
    keys in the order of [most_common(B())]. *)

Definition FreqDist_N {K} (fd : list (K * Z)) : Z :=
  foldr (λ item total, item.2 + total) 0 fd.

Definition FreqDist_B {K} (fd : list (K * Z)) : Z := Z.of_nat (length fd).

Definition FreqDist_iter {K} `{EqDecision K} (fd : list (K * Z)) : list K :=
  (most_common fd (FreqDist_B fd)).*1.

Abbreviation bigram := (list Z * list Z)%type (only parsing).

Record BigramCollocationFinder := {
  word_fd : list (list Z * Z);
  finder_N : Z;                     (* [self.N = word_fd.N()] *)
  ngram_fd : list (bigram * Z);
}.

(** The loop of [from_words] for [window_size = 2]: the windows of
    [ngrams(words, 2, pad_right=True)] are the pairs of adjacent words and,
    last, the final word with [None]; the first word of each window is
    counted, and the pair when its second word is not [None]. *)
Fixpoint from_words_loop (words : list (list Z)) (wfd : list (list Z * Z))
    (bfd : list (bigram * Z)) : list (list Z * Z) * list (bigram * Z) :=
  match words with
  | [] => (wfd, bfd)
  | w1 :: rest =>
      let wfd := dict_set wfd w1 (dict_get wfd w1 0 + 1) in
      match rest with
      | [] => (wfd, bfd)
      | w2 :: _ =>
          from_words_loop rest wfd
            (dict_set bfd (w1, w2) (dict_get bfd (w1, w2) 0 + 1))
      end
  end.

Definition from_words (words : list (list Z)) : BigramCollocationFinder :=
  let fds := from_words_loop words [] [] in
  {| word_fd := fds.1; finder_N := FreqDist_N fds.1; ngram_fd := fds.2 |}.

(** [_apply_filter(lambda ng, freq: freq < min_freq)] *)
Definition apply_freq_filter (finder : BigramCollocationFinder) (min_freq : Z)
    : BigramCollocationFinder :=
  let tmp_ngram :=
    fold_left
      (λ tmp item, if negb (item.2 <? min_freq) then dict_set tmp item.1 item.2
                   else tmp)
      (ngram_fd finder) [] in
  {| word_fd := word_fd finder; finder_N := finder_N finder;
     ngram_fd := tmp_ngram |}.

(** A call either returns or raises [ValueError] ([math.log2] outside its
    domain). *)
Inductive outcome (A : Type) : Type :=
  | Returns (a : A)
  | ValueError.
Arguments Returns {A} a.
Arguments ValueError {A}.

(** ** Floating point

    A Python [float] is an IEEE 754 binary64 number: a [spec_float] of the
    Standard Library, with 53 bits of precision and exponents below 1024.
    Arithmetic rounds to nearest, ties to even. *)

(** [a - b] *)
Definition float_sub (a b : spec_float) : spec_float := SFsub 53 1024 a b.

(** [-a] *)
Definition float_neg (a : spec_float) : spec_float := SFopp a.

(** [a < b] and [a == b]; both are false when [a] or [b] is [nan]. *)
Definition float_lt (a b : spec_float) : bool := SFltb a b.

Definition float_eq (a b : spec_float) : bool := SFeqb a b.

(** [math.isnan] and [math.isfinite] *)
Definition isnan (a : spec_float) : bool :=
  match a with
  | S754_nan => true
  | _ => false
  end.

Definition isfinite (a : spec_float) : bool :=
  match a with
  | S754_zero _ | S754_finite _ _ _ => true
  | _ => false
  end.

(** A PMI score, [math.log2(x) - math.log2(y)], kept as the two arguments
    of the logarithms.  The [float] the program holds is [score_double] of
    it, below; the real number this float approximates is [score_value]. *)
Record pmi_score := { log2_arg : positive; minus_log2_arg : positive }.

(** [math.log2], keeping the argument. *)
Definition _log2 (x : Z) : outcome positive :=
  match x with
  | Zpos p => Returns p
  | _ => ValueError
  end.

(** [BigramAssocMeasures.pmi], for which [_n = 2]:
    [_log2(n_ii * n_xx ** (_n - 1)) - _log2(n_ix * n_xi)]. *)
Definition pmi (n_ii : Z) (n_ix_xi : Z * Z) (n_xx : Z) : outcome pmi_score :=
  match _log2 (n_ii * n_xx ^ (2 - 1)) with
  | ValueError => ValueError
  | Returns x =>
      match _log2 (n_ix_xi.1 * n_ix_xi.2) with
      | ValueError => ValueError
      | Returns y => Returns {| log2_arg := x; minus_log2_arg := y |}
      end
  end.

(** [score_ngram(score_fn, w1, w2)]; [n_ii] is the pair's count divided by
    [window_size - 1.0 = 1.0], and [None] is returned when it is zero. *)
Definition score_ngram (finder : BigramCollocationFinder) (w1 w2 : list Z)
    : outcome (option pmi_score) :=
  let n_all := finder_N finder in
  let n_ii := dict_get (ngram_fd finder) (w1, w2) 0 in
  if n_ii =? 0 then Returns None
  else
    let n_ix := dict_get (word_fd finder) w1 0 in
    let n_xi := dict_get (word_fd finder) w2 0 in
    match pmi n_ii (n_ix, n_xi) n_all with
    | ValueError => ValueError
    | Returns score => Returns (Some score)
    end.

(** The generator [_score_ngrams], run over the pairs [tups]. *)
Fixpoint _score_ngrams (finder : BigramCollocationFinder) (tups : list bigram)
    : outcome (list (bigram * pmi_score)) :=
  match tups with
  | [] => Returns []
  | tup :: rest =>
      match score_ngram finder tup.1 tup.2 with
      | ValueError => ValueError
      | Returns None => _score_ngrams finder rest
      | Returns (Some score) =>
          match _score_ngrams finder rest with
          | ValueError => ValueError
          | Returns scored => Returns ((tup, score) :: scored)
          end
      end
  end.

(** [<] on [str]: lexicographic in the code points. *)
Fixpoint str_ltb (s t : list Z) : bool :=
  match s, t with
  | _, [] => false
  | [], _ :: _ => true
  | a :: s', b :: t' => if a =? b then str_ltb s' t' else a <? b
  end.

(** [<] on pairs of [str]: the first components that differ decide. *)
Definition ngram_ltb (x y : bigram) : bool :=
  if bool_decide (x.1 = y.1) then str_ltb x.2 y.2 else str_ltb x.1 y.1.

Section FloatingPoint.

(** [math.log2] on a positive integer: the [float] that the C library's
    [log2] returns for the integer converted to a [float].  The function is
    the platform's: a parameter.  (The arguments are products of two
    counts; with counts below [2 ** 53] the product [n_ii * n_xx], which
    the code forms in floating point, rounds as the conversion of the exact
    product does.) *)
Variable math_log2 : positive → spec_float.

(** The [float] a score is. *)
Definition score_double (s : pmi_score) : spec_float :=
  float_sub (math_log2 (log2_arg s)) (math_log2 (minus_log2_arg s)).

(** [<] on the sort keys [(-score, ngram)]: tuples are compared on their
    first components unless these are [==], and then on their second. *)
Definition key_ltb (x y : bigram * pmi_score) : bool :=
  let kx := float_neg (score_double x.2) in
  let ky := float_neg (score_double y.2) in
  if float_eq kx ky then ngram_ltb x.1 y.1 else float_lt kx ky.

(** [sorted(self._score_ngrams(score_fn), key=lambda t: (-t[1], t[0]))] *)
Definition score_ngrams (finder : BigramCollocationFinder)
    : outcome (list (bigram * pmi_score)) :=
  match _score_ngrams finder (FreqDist_iter (ngram_fd finder)) with
  | ValueError => ValueError
  | Returns scored => Returns (sorted (λ x y, key_ltb y x) scored)
  end.

(** The collocation part of [main], up to [scored]. *)
Definition collocations (no_stop : list (list Z)) (args_min_freq : Z)
    : outcome (list (bigram * pmi_score)) :=
  let min_freq := Z.max 1 args_min_freq in
  let finder := from_words no_stop in
  let finder :=
    if min_freq >? 1 then apply_freq_filter finder min_freq else finder in
  score_ngrams finder.

End FloatingPoint.

(** [scored[:10]], before formatting. *)
Definition top_scored (scored : list (bigram * pmi_score))
    : list (bigram * pmi_score) :=
  take 10 scored.

(** ** Notions the statements are phrased with *)

(** Number of occurrences of [x] in [l]. *)
Definition occurrences {A} `{EqDecision A} (x : A) (l : list A) : Z :=
  Z.of_nat (length (filter (λ y, y = x) l)).

(** Position of the first occurrence of [x] in [l] (its length if none). *)
Fixpoint first_index {A} `{EqDecision A} (x : A) (l : list A) : nat :=
  match l with
  | [] => O
  | y :: l' => if decide (y = x) then O else S (first_index x l')
  end.

(** The test of the comprehension in [remove_stopwords], as a proposition. *)
Definition kept (stop_set : gset (list Z)) (min_len : Z) (t : list Z) : Prop :=
  (t ∉ stop_set) ∧ min_len ≤ Z.of_nat (length t).

Global Instance kept_dec stop_set min_len t : Decision (kept stop_set min_len t).
Proof. unfold kept. apply _. Defined.

(** The pieces joined by the separator. *)
Fixpoint join (sep : Z) (pieces : list (list Z)) : list Z :=
  match pieces with
  | [] => []
  | piece :: pieces' =>
      match pieces' with
      | [] => piece
      | _ :: _ => piece ++ sep :: join sep pieces'
      end
  end.

(** [pieces] are the [sep]-separated pieces of [s]. *)
Definition is_split (sep : Z) (s : list Z) (pieces : list (list Z)) : Prop :=
  pieces ≠ [] ∧ join sep pieces = s ∧ Forall (λ piece, sep ∉ piece) pieces.

(** [core] is [piece] without its surrounding whitespace. *)
Definition is_trim (piece core : list Z) : Prop :=
  ∃ pre suf,
    piece = pre ++ core ++ suf
    ∧ Forall (λ c, is_space c = true) pre
    ∧ Forall (λ c, is_space c = true) suf
    ∧ (∀ c, head core = Some c → is_space c = false)
    ∧ (∀ c, last core = Some c → is_space c = false).

(** What [Counter] holds after the tokens [p]: each distinct token once, in
    the order of first appearance, with its number of occurrences. *)
Definition counted {K} `{EqDecision K} (p : list K) (d : list (K * Z)) : Prop :=
  NoDup d.*1
  ∧ (∀ t, t ∈ d.*1 ↔ t ∈ p)
  ∧ (∀ t, dict_get d t 0 = occurrences t p)
  ∧ StronglySorted (λ a b, (first_index a p < first_index b p)%nat) d.*1.

(** How two elements stand in the output when the first is before the
    second: the second did not have to go first, and if they tie they are
    in the order [Q] of the input. *)
Definition in_order {A} (goes_after : A → A → bool) (Q : A → A → Prop)
    (x y : A) : Prop :=
  goes_after x y = false ∧ (goes_after y x = false → Q x y).

(** The larger of two, the first one on a tie. *)
Definition first_larger {A} (key : A → Z) (a b : A) : A :=
  if key a <? key b then b else a.

(** All the entries of the counter, most frequent first. *)
Definition ranking {K} `{EqDecision K} (tokens : list K) : list (K * Z) :=
  sorted_desc snd (Counter tokens).

(** The order of the full ranking: larger count first, and on equal counts
    the token that appeared first. *)
Definition ranks_before {K} `{EqDecision K} (tokens : list K) (x y : K * Z)
    : Prop :=
  y.2 < x.2
  ∨ (x.2 = y.2 ∧ (first_index x.1 tokens < first_index y.1 tokens)%nat).

(** Characters that are not Arabic letters: ASCII (digits, punctuation,
    Latin letters), the Arabic-Indic digits, and Arabic punctuation. *)
Definition is_ascii (c : Z) : bool := in_range 0 127 c.

Definition arabic_digit (c : Z) : bool :=
  in_range 0x0660 0x0669 c || in_range 0x06F0 0x06F9 c.

Definition arabic_punctuation (c : Z) : bool :=
  one_of [0x060C; 0x060D; 0x061B; 0x061E; 0x061F; 0x066A; 0x066B; 0x066C;
          0x066D; 0x06D4] c.

(** A number match whose start lies inside no date span. *)
Definition outside_dates (date_spans : list (Z * Z)) (m : re_match) : Prop :=
  ¬ Exists (λ span, span.1 ≤ m_start m < span.2) date_spans.

Global Instance outside_dates_dec date_spans m :
  Decision (outside_dates date_spans m).
Proof. unfold outside_dates. apply _. Defined.

(** A strict total order, given by its boolean test. *)
Record strict_total {A} (ltb : A → A → bool) : Prop := {
  st_irrefl : ∀ x, ltb x x = false;
  st_trans : ∀ x y z, ltb x y = true → ltb y z = true → ltb x z = true;
  st_total : ∀ x y, x ≠ y → ltb x y = false → ltb y x = true;
}.

(** The pairs of adjacent tokens, in order. *)
Fixpoint adjacent_pairs {A} (l : list A) : list (A * A) :=
  match l with
  | [] => []
  | a :: rest =>
      match rest with
      | [] => []
      | b :: _ => (a, b) :: adjacent_pairs rest
      end
  end.

(** The place of a [float] that is not [nan] in the order of [<]: class
    (negative infinity, negative, zero, positive, positive infinity), then
    exponent and mantissa, both negated for a negative number. *)
Definition float_rank (a : spec_float) : Z * Z * Z :=
  match a with
  | S754_nan | S754_zero _ => (0, 0, 0)
  | S754_infinity true => (-2, 0, 0)
  | S754_infinity false => (2, 0, 0)
  | S754_finite true m e => (-1, - e, Zneg m)
  | S754_finite false m e => (1, e, Zpos m)
  end.

(** The lexicographic order of the places. *)
Definition rank_lt (r1 r2 : Z * Z * Z) : Prop :=
  r1.1.1 < r2.1.1
  ∨ (r1.1.1 = r2.1.1
     ∧ (r1.1.2 < r2.1.2 ∨ (r1.1.2 = r2.1.2 ∧ r1.2 < r2.2))).

(** The values of [math.log2] at the integers the examples meet, as
    [float.hex] prints them: [log2(3) = 0x1.95c01a39fbd68p+0],
    [log2(7) = 0x1.675767f54042dp+1], [log2(9) = 0x1.95c01a39fbd68p+1],
    [log2(14) = 0x1.e75767f54042dp+1], [log2(21) = 0x1.191bba891f171p+2],
    and the exact values at 1, 2, 4 and 8.  The other integers are not
    tabulated (0.0 stands there). *)
Definition log2_table (x : positive) : spec_float :=
  match x with
  | 1 => S754_zero false
  | 2 => S754_finite false 0x10000000000000 (-52)
  | 3 => S754_finite false 0x195c01a39fbd68 (-52)
  | 4 => S754_finite false 0x10000000000000 (-51)
  | 7 => S754_finite false 0x1675767f54042d (-51)
  | 8 => S754_finite false 0x18000000000000 (-51)
  | 9 => S754_finite false 0x195c01a39fbd68 (-51)
  | 14 => S754_finite false 0x1e75767f54042d (-51)
  | 21 => S754_finite false 0x1191bba891f171 (-50)
  | _ => S754_zero false
  end%positive.

(** The entries of the pair counter that pass the frequency filter. *)
Definition frequent_pairs (tokens : list (list Z)) (min_freq : Z)
    : list (bigram * Z) :=
  filter (λ item, min_freq ≤ item.2) (Counter (adjacent_pairs tokens)).

(** The score of a pair, in terms of the tokens: the pair's count times the
    number of tokens, against the product of the two words' counts. *)
Definition pmi_of (tokens : list (list Z)) (bg : bigram) : pmi_score :=
  {| log2_arg :=
       Z.to_pos (occurrences bg (adjacent_pairs tokens)
                 * Z.of_nat (length tokens));
     minus_log2_arg :=
       Z.to_pos (occurrences bg.1 tokens * occurrences bg.2 tokens) |}.

(** The binary logarithm, on the reals. *)
Definition log2R (x : R) : R := (ln x / ln 2)%R.

(** The real number a score denotes. *)
Definition score_value (s : pmi_score) : R :=
  (log2R (IZR (Zpos (log2_arg s))) - log2R (IZR (Zpos (minus_log2_arg s))))%R.

(** ** Stemming *)

Section Stemming.

(** The [stem] methods of the objects [ISRIStemmer()] and
    [SnowballStemmer("arabic")] of NLTK: parameters. *)
Variables ISRIStemmer_stem SnowballStemmer_stem : list Z → list Z.

(** The stemmer object is represented by its [stem] method. *)
Definition make_stemmer (kind : list Z) : option (list Z → list Z) :=
  if bool_decide (kind = ascii_str "isri") then Some ISRIStemmer_stem
  else if bool_decide (kind = ascii_str "snowball") then Some SnowballStemmer_stem
  else None.

End Stemming.

(** [tokens if stemmer_obj is None else [stemmer_obj.stem(t) for t in tokens]] *)
Definition stem_tokens (tokens : list (list Z))
    (stemmer_obj : option (list Z → list Z)) : list (list Z) :=
  match stemmer_obj with
  | None => tokens
  | Some stem => map stem tokens
  end.

(** ** E-mail addresses *)

(** [[A-Za-z]] *)
Definition ascii_alpha (c : Z) : bool := in_range 65 90 c || in_range 97 122 c.

(** [[A-Za-z0-9._%+-]] *)
Definition EMAIL_LOCAL (c : Z) : bool :=
  ascii_alpha c || in_range 48 57 c || one_of [46; 95; 37; 43; 45] c.

(** [[A-Za-z0-9.-]] *)
Definition EMAIL_DOMAIN (c : Z) : bool :=
  ascii_alpha c || in_range 48 57 c || one_of [46; 45] c.

Definition AT_SIGN : Z := 64.
Definition DOT : Z := 46.

(** [EMAIL_RE = r"[A-Za-z0-9._%+-]+@[A-Za-z0-9.-]+\.[A-Za-z]{2,}"] *)
Definition EMAIL_RE : regex :=
  concat_re (Repeat EMAIL_LOCAL 1 None)
    [Lit AT_SIGN; Repeat EMAIL_DOMAIN 1 None; Lit DOT; Repeat ascii_alpha 2 None].

Definition extract_emails (text : str) : list (list Z) := findall EMAIL_RE text.

(** ** The driver [main], without its printing *)


(** The parsed command line. [--text] and [--file] are [None] when absent. *)
Record Namespace := {
  args_text : option (list Z);
  args_file : option (list Z);
  args_topk : Z;
  args_min_freq : Z;
  args_keep_ta_marbuta : bool;
  args_extra_stop : list Z;
  args_min_len : Z;
  args_stem : list Z;
}.


(** What [main] computes before it prints. *)
Record Report := {
  report_raw : list Z;
  report_tokens : list (list Z);
  report_no_stop : list (list Z);
  report_stems : list (list Z);
  report_freq : list (list Z * Z);
  report_min_freq : Z;
  report_scored : list (bigram * pmi_score);
  report_top_scored : list (bigram * pmi_score);
  report_emails : list (list Z);
  report_dates : list (list Z);
  report_numbers : list (list Z);
}.


Section Main.

Variable AR_STOPWORDS_RAW : gset (list Z).
Variables ISRIStemmer_stem SnowballStemmer_stem : list Z → list Z.
Variables isdecimal_beyond_ascii isalnum_beyond_ascii : Z → bool.
Variable math_log2 : positive → spec_float.

(** [open(args.file, "r", encoding="utf-8").read()]: the file system, with
    [None] where reading raises. *)
Variable read_file : list Z → option (list Z).


(** The pipeline on the chosen text. *)
Definition pipeline (raw : list Z) (args : Namespace) : outcome Report :=
  let convert_ta := negb (args_keep_ta_marbuta args) in
  let norm := normalize_arabic raw convert_ta in
  let tokens := tokenize_ar norm in
  let stop_set := build_stopwords AR_STOPWORDS_RAW convert_ta (args_extra_stop args) in
  let no_stop := remove_stopwords tokens stop_set (args_min_len args) in
  let chosen_stemmer :=
    make_stemmer ISRIStemmer_stem SnowballStemmer_stem (args_stem args) in
  let stems := stem_tokens no_stop chosen_stemmer in
  let freq := most_common (Counter no_stop) (args_topk args) in
  match collocations math_log2 no_stop (args_min_freq args) with
  | ValueError => ValueError
  | Returns scored =>
      Returns
        {| report_raw := raw;
           report_tokens := tokens;
           report_no_stop := no_stop;
           report_stems := stems;
           report_freq := freq;
           report_min_freq := Z.max 1 (args_min_freq args);
           report_scored := scored;
           report_top_scored := take 10 scored;
           report_emails := extract_emails raw;
           report_dates :=
             extract_dates isdecimal_beyond_ascii isalnum_beyond_ascii raw;
           report_numbers :=
             extract_numbers_excluding_dates
               isdecimal_beyond_ascii isalnum_beyond_ascii raw |}
  end.


End Main.

(** ** Notions the further statements are phrased with *)

(** The strings a pattern can match, leaving the context conditions of
    [\b] aside. *)
Fixpoint denotes (r : regex) (s : list Z) : Prop :=
  match r with
  | Boundary _ => s = []
  | Lit c => s = [c]
  | Repeat cls lo hi =>
      Forall (λ c, cls c = true) s ∧ (lo ≤ length s)%nat
      ∧ match hi with Some h => (length s ≤ h)%nat | None => True end
  | Seq r1 r2 => ∃ s1 s2, s = s1 ++ s2 ∧ denotes r1 s1 ∧ denotes r2 s2
  | Opt r' => s = [] ∨ denotes r' s
  end.

(** The character before the position reached after reading [s]. *)
Definition last_or (prev : option Z) (s : list Z) : option Z :=
  match last s with
  | Some c => Some c
  | None => prev
  end.

(** The maximal runs of characters of a class, scanned left to right with
    the run in progress in [cur]. *)
Fixpoint runs_from (cls : Z → bool) (cur : list Z) (text : list Z)
    : list (list Z) :=
  match text with
  | [] => match cur with [] => [] | _ :: _ => [cur] end
  | c :: rest =>
      if cls c then runs_from cls (cur ++ [c]) rest
      else match cur with
           | [] => runs_from cls [] rest
           | _ :: _ => cur :: runs_from cls [] rest
           end
  end.

(** A string of [n] digits, or of between [lo] and [hi] digits. *)
Definition digit_string (is_digit : Z → bool) (lo hi : nat) (s : list Z) : Prop :=
  Forall (λ c, is_digit c = true) s ∧ (lo ≤ length s ≤ hi)%nat.

(** The characters the normalization deletes. *)
Definition deleted_char (c : Z) : bool := AR_DIACRITICS c || AR_TATWEEL c.

(** The characters the normalization rewrites into another one. *)
Definition rewritten_char (convert_ta_marbuta : bool) (c : Z) : bool :=
  one_of [ALEF_MADDA; ALEF_HAMZA_ABOVE; WAW_HAMZA; ALEF_HAMZA_BELOW; YEH_HAMZA;
          ALEF_MAKSURA] c
  || (convert_ta_marbuta && (c =? TEH_MARBUTA)).

(** The characters outside the block U+0617..U+0652, where all the
    characters that the normalization deletes or rewrites lie. *)
Definition beyond_rewrites (c : Z) : bool := negb (in_range 0x0617 0x0652 c).

(** A character the normalization leaves in place. *)
Definition stable_char (convert_ta_marbuta : bool) (c : Z) : bool :=
  negb (deleted_char c) && negb (rewritten_char convert_ta_marbuta c).


(** [text[s:e]] for offsets within the text. *)
Definition slice (text : list Z) (s e : Z) : list Z :=
  take (Z.to_nat (e - s)) (drop (Z.to_nat s) text).

(** A non-empty string of characters of a class. *)
Definition some_of (cls : Z → bool) (s : list Z) : Prop :=
  Forall (λ c, cls c = true) s ∧ s ≠ [].

(** [piece] occurs in [text] as a run of consecutive characters. *)
Definition occurs_in (piece text : list Z) : Prop :=
  ∃ before after, text = before ++ piece ++ after.


(** Sum of the counts of a frequency list. *)
Definition total_count {K} (l : list (K * Z)) : Z :=
  foldr (λ item total, item.2 + total) 0 l.

(** * Properties *)

(** Decide a comparison of code points from the bounds in the context. *)
Ltac settle_tests :=
  repeat match goal with
    | |- context [Z.eqb ?a ?b] => destruct (Z.eqb_spec a b); [lia|]
    | |- context [Z.leb ?a ?b] => destruct (Z.leb_spec a b); try lia
    end.

Section Normalization.

Lemma re_sub_app cls repl s t :
  re_sub cls repl (s ++ t) = re_sub cls repl s ++ re_sub cls repl t.
Proof.
  induction s as [|c s IH]; simpl; [done|].
  destruct (cls c); rewrite IH; [by rewrite app_assoc | done].
Qed.

Lemma normalize_arabic_app s t p :
  normalize_arabic (s ++ t) p = normalize_arabic s p ++ normalize_arabic t p.
Proof. unfold normalize_arabic. destruct p; by rewrite !re_sub_app. Qed.

Lemma normalize_arabic_cons c s p :
  normalize_arabic (c :: s) p = normalize_char p c ++ normalize_arabic s p.
Proof. apply (normalize_arabic_app [c] s p). Qed.

Lemma normalize_arabic_nil p : normalize_arabic [] p = [].
Proof. by destruct p. Qed.

(** Outside U+0617..U+0652 no pass matches. *)
Lemma normalize_char_outside p c :
  c < 0x0617 ∨ 0x0652 < c → normalize_char p c = [c].
Proof.
  intros Hc.
  unfold normalize_char, normalize_arabic, AR_DIACRITICS, AR_TATWEEL,
    in_range, one_of, ALEF_HAMZA_BELOW, ALEF_HAMZA_ABOVE, ALEF_MADDA, ALEF,
    ALEF_MAKSURA, WAW_HAMZA, YEH_HAMZA, TEH_MARBUTA.
  destruct Hc, p; repeat (simpl; settle_tests); reflexivity.
Qed.

(** Inside the range the characters are finitely many: run the passes. *)
Lemma normalize_char_inside p c :
  0x0617 ≤ c ≤ 0x0652 → idempotent_on p c = true.
Proof.
  intros Hc.
  assert (Hall : forallb (idempotent_on p) (seqZ 0x0617 60) = true)
    by (destruct p; vm_compute; reflexivity).
  rewrite forallb_forall in Hall. apply Hall.
  apply list_elem_of_In, elem_of_seqZ. lia.
Qed.

Lemma normalize_char_idem p c :
  normalize_arabic (normalize_char p c) p = normalize_char p c.
Proof.
  destruct (decide (0x0617 ≤ c ≤ 0x0652)) as [Hin|Hout].
  - apply normalize_char_inside with (p := p) in Hin.
    unfold idempotent_on in Hin. by apply bool_decide_eq_true in Hin.
  - rewrite normalize_char_outside by lia.
    apply (normalize_char_outside p c). lia.
Qed.

Lemma normalize_arabic_idem s p :
  normalize_arabic (normalize_arabic s p) p = normalize_arabic s p.
Proof.
  induction s as [|c s IH]; [by rewrite !normalize_arabic_nil|].
  rewrite normalize_arabic_cons, normalize_arabic_app, IH.
  by rewrite normalize_char_idem.
Qed.

End Normalization.

Section Tokenizer.

Lemma repeat_matches_spec cls lo hi prev rest st :
  st ∈ repeat_matches cls lo hi prev rest →
  ∃ pre, rest = pre ++ st.2 ∧ Forall (λ c, cls c = true) pre
         ∧ (lo ≤ length pre)%nat.
Proof.
  revert lo hi prev.
  induction rest as [|c rest IH]; intros lo hi prev; simpl.
  - destruct lo; [|by intros ?%elem_of_nil].
    intros ->%list_elem_of_singleton. exists []. simpl. auto with lia.
  - rewrite elem_of_app. intros [H|H].
    + destruct (cls c) eqn:E; [|by apply elem_of_nil in H].
      assert (∃ lo' hi' prev', st ∈ repeat_matches cls lo' hi' prev' rest
                               ∧ (lo ≤ S lo')%nat) as (lo' & hi' & prev' & H' & Hlo).
      { destruct hi as [[|h]|]; [by apply elem_of_nil in H| |];
          eexists _, _, _; (split; [exact H|lia]). }
      apply IH in H' as (pre & -> & Hpre & Hlen).
      exists (c :: pre). simpl. repeat split; [by constructor|lia].
    + destruct lo; [|by apply elem_of_nil in H].
      apply list_elem_of_singleton in H as ->. exists []. simpl. auto with lia.
Qed.

(** Every match reported by the scan is the first way the pattern matches
    at some suffix of the text. *)
Lemma finditer_from_spec r skip pos prev rest m :
  m ∈ finditer_from r skip pos prev rest →
  ∃ prev' from st,
    from `suffix_of` rest ∧ head (matches r (prev', from)) = Some st
    ∧ m_group m = take (length from - length st.2) from.
Proof.
  revert skip pos prev.
  induction rest as [|c rest IH]; intros skip pos prev; simpl.
  - destruct skip; [|by intros ?%elem_of_nil].
    destruct (head (matches r (prev, []))) as [[p after]|] eqn:E;
      [|by intros ?%elem_of_nil].
    intros ->%list_elem_of_singleton. by exists prev, [], (p, after).
  - assert (Htail : ∀ k q pr, m ∈ finditer_from r k q pr rest →
      ∃ prev' from st, from `suffix_of` (c :: rest)
        ∧ head (matches r (prev', from)) = Some st
        ∧ m_group m = take (length from - length st.2) from).
    { intros k q pr (prev' & from & st & Hsuf & Hm & Hg)%IH.
      exists prev', from, st. split; [by apply suffix_cons_r|done]. }
    destruct skip; [|by apply Htail].
    destruct (head (matches r (prev, c :: rest))) as [[p after]|] eqn:E;
      [|by apply Htail].
    intros [->|H]%elem_of_cons; [|by eapply Htail].
    by exists prev, (c :: rest), (p, after).
Qed.

Lemma tokenize_ar_letters text t :
  t ∈ tokenize_ar text → t ≠ [] ∧ Forall (λ c, AR_LETTER c = true) t.
Proof.
  unfold tokenize_ar, findall, finditer.
  intros (m & -> & Hm)%list_elem_of_fmap.
  apply finditer_from_spec in Hm as (prev' & from & st & _ & Hhd & ->).
  apply head_Some_elem_of in Hhd. simpl in Hhd.
  apply repeat_matches_spec in Hhd as (pre & -> & Hpre & Hlen).
  rewrite length_app, Nat.add_sub, take_app_length.
  split; [|done]. intros ->. simpl in Hlen. lia.
Qed.

End Tokenizer.

Section StopwordFilter.

Lemma remove_stopwords_filter tokens stop_set min_len :
  remove_stopwords tokens stop_set min_len
  = filter (kept stop_set min_len) tokens.
Proof.
  induction tokens as [|t tokens IH]; [done|]. simpl. rewrite IH.
  rewrite filter_cons. unfold kept at 2.
  destruct (decide _) as [[Hs Hl]|Hn].
  - rewrite bool_decide_eq_true_2 by done. simpl.
    destruct (Z.geb_spec (Z.of_nat (length t)) min_len); [done|lia].
  - destruct (bool_decide_reflect (t ∉ stop_set)); [|done]. simpl.
    destruct (Z.geb_spec (Z.of_nat (length t)) min_len); [|done].
    destruct Hn. split; [done|lia].
Qed.

Lemma occurrences_filter {A} `{EqDecision A} (P : A → Prop)
    `{∀ x, Decision (P x)} (x : A) (l : list A) :
  P x → occurrences x (filter P l) = occurrences x l.
Proof.
  intros HP. unfold occurrences. f_equal. f_equal.
  induction l as [|y l IH]; [done|].
  rewrite (filter_cons P). destruct (decide (P y)) as [Hy|Hy].
  - rewrite !filter_cons. destruct (decide (y = x)); by rewrite IH.
  - rewrite IH. rewrite (filter_cons (λ y, y = x)).
    destruct (decide (y = x)) as [->|]; [done|done].
Qed.

End StopwordFilter.

Section StopwordSet.

Lemma split_nonempty sep s : split sep s ≠ [].
Proof.
  destruct s as [|c s]; simpl; [done|].
  destruct (c =? sep); [done|]. by destruct (split sep s).
Qed.

Lemma split_is_split sep s : is_split sep s (split sep s).
Proof.
  split; [apply split_nonempty|].
  induction s as [|c s [IHj IHf]]; simpl.
  - split; [done|]. constructor; [|done]. by intros ?%elem_of_nil.
  - pose proof (split_nonempty sep s) as Hne.
    destruct (Z.eqb_spec c sep) as [->|Hc].
    + split.
      * simpl. destruct (split sep s); [done|]. by rewrite IHj.
      * constructor; [by intros ?%elem_of_nil|done].
    + destruct (split sep s) as [|piece pieces]; [done|].
      apply Forall_cons in IHf as [Hp Hps]. split.
      * simpl in *. destruct pieces; by rewrite <- IHj.
      * constructor; [|done]. intros [?|?]%elem_of_cons; [congruence|done].
Qed.

Lemma lstrip_spec s :
  ∃ pre, s = pre ++ lstrip s ∧ Forall (λ c, is_space c = true) pre
         ∧ ∀ c, head (lstrip s) = Some c → is_space c = false.
Proof.
  induction s as [|c s (pre & Hs & Hpre & Hhd)]; simpl.
  - exists []. repeat split; [done|]. by intros c [=].
  - destruct (is_space c) eqn:E.
    + exists (c :: pre). simpl. rewrite <- Hs. repeat split; [by constructor|done].
    + exists []. repeat split; [done|]. by intros c' [= <-].
Qed.

Lemma lstrip_spaces pre s :
  Forall (λ c, is_space c = true) pre → lstrip (pre ++ s) = lstrip s.
Proof. induction 1 as [|c pre Hc _ IH]; simpl; [done|]. by rewrite Hc. Qed.

Lemma lstrip_id s :
  (∀ c, head s = Some c → is_space c = false) → lstrip s = s.
Proof. destruct s as [|c s]; simpl; [done|]. intros H. by rewrite (H c). Qed.

Lemma lstrip_all_spaces s :
  Forall (λ c, is_space c = true) s → lstrip s = [].
Proof. intros H. rewrite <- (app_nil_r s). by rewrite lstrip_spaces. Qed.

Lemma strip_is_trim piece : is_trim piece (strip piece).
Proof.
  destruct (lstrip_spec piece) as (pre & Hpiece & Hpre & Hhd).
  destruct (lstrip_spec (reverse (lstrip piece))) as (fus & Hrev & Hfus & Hlast).
  assert (Hl : lstrip piece = strip piece ++ reverse fus).
  { unfold strip, rstrip. rewrite <- reverse_app, <- Hrev.
    by rewrite reverse_involutive. }
  exists pre, (reverse fus). rewrite <- Hl. split; [done|]. split; [done|].
  split; [by apply Forall_reverse|]. split.
  - intros c Hc. apply Hhd. rewrite Hl.
    destruct (strip piece); [done|]. by simpl in *.
  - intros c Hc. apply Hlast. unfold strip, rstrip in Hc.
    by rewrite last_reverse in Hc.
Qed.

Lemma is_trim_strip piece core : is_trim piece core → core = strip piece.
Proof.
  intros (pre & suf & -> & Hpre & Hsuf & Hhd & Hlast).
  unfold strip, rstrip. rewrite lstrip_spaces by done.
  destruct core as [|c core].
  { by rewrite app_nil_l, (lstrip_all_spaces suf) by done. }
  rewrite (lstrip_id ((c :: core) ++ suf)) by (intros c' [= <-]; by apply Hhd).
  rewrite reverse_app, lstrip_spaces by (by apply Forall_reverse).
  rewrite lstrip_id; [by rewrite reverse_involutive|].
  intros c' Hc'. apply Hlast. by rewrite <- head_reverse.
Qed.

Variable AR_STOPWORDS_RAW : gset (list Z).

Lemma elem_of_build_stopwords (p : bool) (extra s : list Z) :
  s ∈ build_stopwords AR_STOPWORDS_RAW p extra ↔
    (∃ w, w ∈ AR_STOPWORDS_RAW ∧ s = normalize_arabic w p)
    ∨ (∃ piece, piece ∈ split COMMA extra ∧ strip piece ≠ []
                ∧ s = normalize_arabic (strip piece) p).
Proof.
  unfold build_stopwords. rewrite elem_of_union, !elem_of_map.
  setoid_rewrite elem_of_list_to_set. setoid_rewrite list_elem_of_fmap.
  setoid_rewrite list_elem_of_filter.
  split.
  - intros [(w & -> & Hw)|(w & -> & piece & -> & Hne & Hin)];
      [left; by exists w|right].
    exists piece. split; [|done].
    destruct extra; [by apply elem_of_nil in Hin|done].
  - intros [(w & Hw & ->)|(piece & Hin & Hne & ->)];
      [left; by exists w|right].
    exists (strip piece). split; [done|].
    exists piece. split; [done|]. split; [done|].
    destruct extra; [|done]. simpl in Hin.
    apply list_elem_of_singleton in Hin as ->. by destruct Hne.
Qed.

Lemma build_stopwords_normalized (p : bool) (extra s : list Z) :
  s ∈ build_stopwords AR_STOPWORDS_RAW p extra → normalize_arabic s p = s.
Proof.
  rewrite elem_of_build_stopwords.
  intros [(w & _ & ->)|(piece & _ & _ & ->)]; apply normalize_arabic_idem.
Qed.

End StopwordSet.

Section CounterProps.
Context {K : Type} `{EqDecision K}.
Implicit Types (d : list (K * Z)) (p : list K).

Lemma occurrences_nil (t : K) : occurrences t [] = 0.
Proof. done. Qed.

Lemma occurrences_snoc (t x : K) p :
  occurrences t (p ++ [x])
  = occurrences t p + (if decide (x = t) then 1 else 0).
Proof.
  unfold occurrences. rewrite filter_app, length_app, filter_cons.
  destruct (decide (x = t)); simpl; lia.
Qed.

Lemma occurrences_nonneg (t : K) p : 0 ≤ occurrences t p.
Proof. unfold occurrences. lia. Qed.

Lemma occurrences_pos (t : K) p : t ∈ p ↔ 0 < occurrences t p.
Proof.
  unfold occurrences. split.
  - intros Hin. assert (Ht : t ∈ filter (λ y, y = t) p)
      by (by apply list_elem_of_filter).
    destruct (filter _ p); [by apply elem_of_nil in Ht|simpl; lia].
  - intros Hlen. destruct (filter (λ y, y = t) p) as [|y l] eqn:E;
      [simpl in Hlen; lia|].
    assert (Hy : y ∈ filter (λ y, y = t) p) by (rewrite E; left).
    by apply list_elem_of_filter in Hy as [-> ?].
Qed.

Lemma first_index_app_l (a : K) p q :
  a ∈ p → first_index a (p ++ q) = first_index a p.
Proof.
  induction p as [|y p IH]; [by intros ?%elem_of_nil|].
  intros Hin. simpl. destruct (decide (y = a)); [done|].
  apply elem_of_cons in Hin as [->|Hin]; [done|]. by rewrite IH.
Qed.

Lemma first_index_app_r (a : K) p q :
  a ∉ p → first_index a (p ++ q) = (length p + first_index a q)%nat.
Proof.
  induction p as [|y p IH]; [done|].
  intros Hin. apply not_elem_of_cons in Hin as [Hne Hin]. simpl.
  destruct (decide (y = a)); [congruence|]. by rewrite IH.
Qed.

Lemma first_index_lt (a : K) p : a ∈ p → (first_index a p < length p)%nat.
Proof.
  induction p as [|y p IH]; [by intros ?%elem_of_nil|].
  intros Hin. simpl. destruct (decide (y = a)); [lia|].
  apply elem_of_cons in Hin as [->|Hin]; [done|]. apply IH in Hin. lia.
Qed.

Lemma dict_set_keys d k v :
  (dict_set d k v).*1 = if decide (k ∈ d.*1) then d.*1 else d.*1 ++ [k].
Proof.
  induction d as [|[k' v'] d IH]; [done|].
  cbn [dict_set]. destruct (decide (k' = k)) as [->|Hne];
    rewrite !fmap_cons; cbn [fst].
  - clear IH. case_decide as Hn; [done|]. destruct Hn. left.
  - rewrite IH. clear IH.
    destruct (decide (k ∈ d.*1)), (decide (k ∈ k' :: d.*1)) as [Hin'|Hn'];
      try done.
    + exfalso. apply Hn'. by right.
    + apply elem_of_cons in Hin' as [?|?]; [congruence|done].
Qed.

Lemma dict_get_set d k v k' default :
  dict_get (dict_set d k v) k' default
  = if decide (k = k') then v else dict_get d k' default.
Proof.
  induction d as [|[k0 v0] d IH]; simpl.
  - by destruct (decide (k = k')).
  - destruct (decide (k0 = k)) as [->|Hne]; simpl.
    + by destruct (decide (k = k')).
    + destruct (decide (k0 = k')) as [->|]; [|done].
      by rewrite decide_False by done.
Qed.

Lemma dict_get_elem d k v default :
  NoDup d.*1 → (k, v) ∈ d → dict_get d k default = v.
Proof.
  induction d as [|[k0 v0] d IH]; [by intros _ ?%elem_of_nil|].
  simpl. intros [Hk0 Hnd]%NoDup_cons [[= -> ->]|Hin]%elem_of_cons.
  - by rewrite decide_True.
  - rewrite decide_False; [by apply IH|].
    intros ->. apply Hk0. apply list_elem_of_fmap. by exists (k, v).
Qed.

Lemma dict_get_lookup d k default :
  k ∈ d.*1 → (k, dict_get d k default) ∈ d.
Proof.
  induction d as [|[k0 v0] d IH]; [by intros ?%elem_of_nil|].
  simpl. destruct (decide (k0 = k)) as [->|Hne]; [left|].
  intros [?|Hin]%elem_of_cons; [congruence|]. right. by apply IH.
Qed.

Lemma StronglySorted_impl_elem {A} (R R' : A → A → Prop) (l : list A) :
  (∀ x y, x ∈ l → y ∈ l → R x y → R' x y) →
  StronglySorted R l → StronglySorted R' l.
Proof.
  intros Himpl Hs. induction Hs as [|x l Hs IH Hall]; constructor.
  - apply IH. intros a b Ha Hb. apply Himpl; by right.
  - rewrite Forall_forall in *. intros y Hy.
    apply Himpl; [left|by right|by apply Hall].
Qed.

Lemma Counter_counted p : counted p (Counter p).
Proof.
  unfold Counter, _count_elements.
  induction p as [|x p IH] using rev_ind.
  { repeat split; simpl; try done; constructor. }
  destruct IH as (Hnd & Hkeys & Hget & Hord).
  rewrite fold_left_app. simpl.
  set (d := fold_left _ p []) in *.
  assert (Hk := dict_set_keys d x (dict_get d x 0 + 1)).
  split; [|split; [|split]].
  - rewrite Hk. destruct (decide (x ∈ d.*1)); [done|].
    apply NoDup_app. split; [done|]. split; [|apply NoDup_singleton].
    by intros y Hy ->%list_elem_of_singleton.
  - intros t. rewrite Hk, elem_of_app, list_elem_of_singleton.
    destruct (decide (x ∈ d.*1)) as [Hin|Hin].
    + rewrite Hkeys. split; [tauto|]. intros [?| ->]; [done|by apply Hkeys].
    + by rewrite elem_of_app, list_elem_of_singleton, Hkeys.
  - intros t. rewrite dict_get_set, occurrences_snoc, !Hget.
    destruct (decide (x = t)) as [->|]; lia.
  - rewrite Hk.
    assert (Hold : StronglySorted
      (λ a b, (first_index a (p ++ [x]) < first_index b (p ++ [x]))%nat) d.*1).
    { eapply StronglySorted_impl_elem; [|exact Hord].
      intros a b Ha%Hkeys Hb%Hkeys. by rewrite !first_index_app_l. }
    destruct (decide (x ∈ d.*1)) as [Hin|Hin]; [done|].
    apply StronglySorted_app. split; [|split; [done|repeat constructor]].
    intros a b Ha%Hkeys ->%list_elem_of_singleton.
    rewrite first_index_app_l by done.
    rewrite first_index_app_r by (by rewrite <- Hkeys). simpl.
    rewrite decide_True by done. apply first_index_lt in Ha. lia.
Qed.

End CounterProps.

Section SortedProps.
Context {A : Type} (goes_after : A → A → bool).

Lemma insert_sorted_perm x l : insert_sorted goes_after x l ≡ₚ x :: l.
Proof.
  induction l as [|y l IH]; simpl; [done|].
  destruct (goes_after x y); [|done]. rewrite IH. apply perm_swap.
Qed.

Lemma sorted_perm l : sorted goes_after l ≡ₚ l.
Proof.
  induction l as [|x l IH]; simpl; [done|].
  by rewrite insert_sorted_perm, IH.
Qed.

(** The comparison is a strict weak order: it is asymmetric, and not
    having to go after is transitive. *)
Hypothesis goes_after_asym : ∀ x y, goes_after x y = true → goes_after y x = false.
Hypothesis stays_trans : ∀ x y z,
  goes_after x y = false → goes_after y z = false → goes_after x z = false.

Lemma insert_sorted_in_order (Q : A → A → Prop) x l :
  Forall (Q x) l → StronglySorted (in_order goes_after Q) l →
  StronglySorted (in_order goes_after Q) (insert_sorted goes_after x l).
Proof.
  intros Hx Hs. induction Hs as [|y l Hs IH Hy]; simpl.
  { repeat constructor. }
  apply Forall_cons in Hx as [Hxy Hxl].
  destruct (goes_after x y) eqn:E.
  - constructor; [by apply IH|].
    rewrite insert_sorted_perm. constructor; [|done].
    split; [by apply goes_after_asym|congruence].
  - constructor; [by constructor|].
    constructor; [by split|].
    rewrite Forall_forall in *. intros z Hz. split; [|auto].
    destruct (Hy z Hz) as [Hyz _]. by eapply stays_trans.
Qed.

Lemma sorted_in_order (Q : A → A → Prop) l :
  StronglySorted Q l → StronglySorted (in_order goes_after Q) (sorted goes_after l).
Proof.
  induction 1 as [|x l Hs IH Hx]; simpl; [constructor|].
  apply insert_sorted_in_order; [|done]. by rewrite sorted_perm.
Qed.

End SortedProps.

Lemma StronglySorted_lookup {A} (R : A → A → Prop) (l : list A) i j x y :
  StronglySorted R l → l !! i = Some x → l !! j = Some y → (i < j)%nat →
  R x y.
Proof.
  intros Hs. revert i j. induction Hs as [|z l Hs IH Hz]; intros i j Hi Hj Hij.
  { by rewrite lookup_nil in Hi. }
  destruct j as [|j]; [lia|]. simpl in Hj. destruct i as [|i].
  - simpl in Hi. injection Hi as ->. rewrite Forall_forall in Hz.
    apply Hz. by eapply list_elem_of_lookup_2.
  - simpl in Hi. eapply IH; [done|done|lia].
Qed.

Lemma StronglySorted_always {A} (l : list A) :
  StronglySorted (λ _ _, True) l.
Proof. induction l; constructor; [done|]. by apply Forall_forall. Qed.

Section Largest.
Context {A : Type} (key : A → Z).

Lemma sorted_desc_perm l : sorted_desc key l ≡ₚ l.
Proof. apply sorted_perm. Qed.

(** In the decreasing stable sort, of two entries the earlier one has the
    larger key, or the same key and was earlier in the input. *)
Lemma sorted_desc_stable (Q : A → A → Prop) l :
  StronglySorted Q l →
  StronglySorted (λ x y, key y < key x ∨ (key x = key y ∧ Q x y))
                 (sorted_desc key l).
Proof.
  intros Hs. unfold sorted_desc.
  apply (sorted_in_order (λ x y, key x <? key y)) in Hs.
  - eapply StronglySorted_impl_elem; [|exact Hs].
    intros x y _ _ [H1 H2].
    destruct (Z.ltb_spec (key x) (key y)); [done|].
    destruct (Z.ltb_spec (key y) (key x)); [by left|].
    right. split; [lia|by apply H2].
  - intros x y. destruct (Z.ltb_spec (key x) (key y)); [|done].
    intros _. destruct (Z.ltb_spec (key y) (key x)); [lia|done].
  - intros x y z. destruct (Z.ltb_spec (key x) (key y)); [done|].
    destruct (Z.ltb_spec (key y) (key z)); [done|].
    intros _ _. destruct (Z.ltb_spec (key x) (key z)); [lia|done].
Qed.

Lemma first_larger_assoc a b c :
  first_larger key (first_larger key a b) c
  = first_larger key a (first_larger key b c).
Proof.
  unfold first_larger.
  destruct (Z.ltb_spec (key a) (key b)), (Z.ltb_spec (key b) (key c));
    repeat match goal with
      | |- context [Z.ltb ?u ?v] => destruct (Z.ltb_spec u v)
      end; try done; lia.
Qed.

Lemma max_by_first_larger x y rest :
  max_by key (first_larger key x y) rest
  = first_larger key x (max_by key y rest).
Proof.
  unfold max_by. fold (first_larger key). revert y.
  induction rest as [|z rest IH]; intros y; [done|].
  simpl. by rewrite first_larger_assoc, IH.
Qed.

Lemma head_insert_sorted (goes_after : A → A → bool) x s :
  head (insert_sorted goes_after x s)
  = Some (match head s with
          | Some h => if goes_after x h then h else x
          | None => x
          end).
Proof. destruct s as [|h s]; simpl; [done|]. by destruct (goes_after x h). Qed.

Lemma sorted_desc_head x rest :
  head (sorted_desc key (x :: rest)) = Some (max_by key x rest).
Proof.
  revert x. induction rest as [|y rest IH]; intros x; [done|].
  change (sorted_desc key (x :: y :: rest))
    with (insert_sorted (λ x y, key x <? key y) x (sorted_desc key (y :: rest))).
  rewrite head_insert_sorted, IH.
  change (max_by key x (y :: rest)) with (max_by key (first_larger key x y) rest).
  by rewrite max_by_first_larger.
Qed.

Lemma nlargest_take (n : Z) (l : list A) :
  nlargest n l key = take (Z.to_nat n) (sorted_desc key l).
Proof.
  unfold nlargest. destruct (Z.eqb_spec n 1) as [->|Hn1].
  - destruct l as [|x rest]; [done|].
    pose proof (sorted_desc_head x rest) as Hhd.
    destruct (sorted_desc key (x :: rest)); [done|].
    simpl in Hhd. injection Hhd as ->. done.
  - destruct (n >=? Z.of_nat (length l)); [done|].
    destruct (Z.leb_spec n 0); [|done].
    by replace (Z.to_nat n) with O by lia.
Qed.

End Largest.

Lemma StronglySorted_fmap_inv {A B} (f : A → B) (R : B → B → Prop) l :
  StronglySorted R (f <$> l) → StronglySorted (λ x y, R (f x) (f y)) l.
Proof.
  induction l as [|x l IH]; [constructor|].
  rewrite fmap_cons. intros [Hx Hs]%StronglySorted_cons.
  constructor; [by apply IH|]. by rewrite Forall_fmap in Hx.
Qed.

Section TopFrequent.
Context {K : Type} `{EqDecision K}.
Variables (tokens : list K) (n : Z).

Lemma most_common_take :
  most_common (Counter tokens) n = take (Z.to_nat n) (ranking tokens).
Proof. apply nlargest_take. Qed.

Lemma ranking_perm : ranking tokens ≡ₚ Counter tokens.
Proof. apply sorted_desc_perm. Qed.

Lemma ranking_sorted : StronglySorted (ranks_before tokens) (ranking tokens).
Proof.
  destruct (Counter_counted tokens) as (_ & _ & _ & Hord).
  apply StronglySorted_fmap_inv in Hord.
  by apply (sorted_desc_stable snd) in Hord.
Qed.

Lemma ranking_entry t c :
  (t, c) ∈ ranking tokens ↔ t ∈ tokens ∧ c = occurrences t tokens.
Proof.
  destruct (Counter_counted tokens) as (Hnd & Hkeys & Hget & _).
  rewrite ranking_perm. split.
  - intros Hin. split.
    + apply Hkeys, list_elem_of_fmap. by exists (t, c).
    + rewrite <- Hget. symmetry. by apply dict_get_elem.
  - intros [Hin ->]. rewrite <- Hget. by apply dict_get_lookup, Hkeys.
Qed.

Lemma ranking_keys : (ranking tokens).*1 ≡ₚ remove_dups tokens.
Proof.
  destruct (Counter_counted tokens) as (Hnd & Hkeys & _ & _).
  rewrite ranking_perm. apply NoDup_Permutation; [done|apply NoDup_remove_dups|].
  intros t. by rewrite Hkeys, elem_of_remove_dups.
Qed.

Lemma ranking_NoDup : NoDup (ranking tokens).*1.
Proof. rewrite ranking_keys. apply NoDup_remove_dups. Qed.

End TopFrequent.

Section Extractors.
Variables isdecimal_beyond_ascii isalnum_beyond_ascii : Z → bool.

Lemma in_some_span_spec s spans :
  in_some_span s spans = true ↔ Exists (λ span, span.1 ≤ s < span.2) spans.
Proof.
  unfold in_some_span. rewrite existsb_exists, Exists_exists.
  split; intros (span & Hin & Hs); exists span.
  - apply list_elem_of_In in Hin. split; [done|].
    apply andb_true_iff in Hs as [?%Z.leb_le ?%Z.ltb_lt]. lia.
  - apply list_elem_of_In in Hin. split; [done|].
    apply andb_true_iff. split; [apply Z.leb_le|apply Z.ltb_lt]; lia.
Qed.

Lemma number_loop date_spans (ms : list re_match) (nums : list (list Z)) :
  fold_left
    (λ nums m,
       let s := m_start m in
       if negb (in_some_span s date_spans) then nums ++ [m_group m] else nums)
    ms nums
  = nums ++ map m_group (filter (outside_dates date_spans) ms).
Proof.
  revert nums. induction ms as [|m ms IH]; intros nums; simpl.
  { by rewrite app_nil_r. }
  rewrite IH, filter_cons. unfold outside_dates at 2.
  destruct (decide _) as [Hout|Hin].
  - destruct (in_some_span (m_start m) date_spans) eqn:E.
    + by apply in_some_span_spec in E.
    + simpl. by rewrite <- app_assoc.
  - destruct (in_some_span (m_start m) date_spans) eqn:E; [done|].
    destruct Hin. intros Hex. apply in_some_span_spec in Hex. congruence.
Qed.

End Extractors.

Section Orders.

Lemma strict_total_asym {A} (ltb : A → A → bool) x y :
  strict_total ltb → ltb x y = true → ltb y x = false.
Proof.
  intros [Hirr Htr _] Hxy. destruct (ltb y x) eqn:E; [|done].
  by rewrite <- (Hirr x), (Htr x y x).
Qed.

(** Not being smaller is transitive. *)
Lemma strict_total_ge_trans {A} `{EqDecision A} (ltb : A → A → bool) x y z :
  strict_total ltb →
  ltb x y = false → ltb y z = false → ltb x z = false.
Proof.
  intros Hst Hxy Hyz. pose proof Hst as [Hirr Htr Htot].
  destruct (ltb x z) eqn:Hxz; [|done].
  destruct (decide (x = y)) as [->|Hne]; [congruence|].
  destruct (decide (y = z)) as [->|Hne']; [congruence|].
  apply Htot in Hxy; [|done]. apply Htot in Hyz; [|done].
  pose proof (Htr _ _ _ Hyz Hxy) as Hzx.
  apply (strict_total_asym ltb) in Hzx; [congruence|done].
Qed.

Lemma str_ltb_strict_total : strict_total str_ltb.
Proof.
  split.
  - induction x as [|a x IH]; [done|]. simpl. by rewrite Z.eqb_refl.
  - induction x as [|a x IH]; intros [|b y] [|c z]; simpl; try done.
    destruct (Z.eqb_spec a b) as [->|Hab], (Z.eqb_spec b c) as [->|Hbc].
    + apply IH.
    + done.
    + intros Hlt _. destruct (Z.eqb_spec a c); [congruence|done].
    + intros ?%Z.ltb_lt ?%Z.ltb_lt.
      destruct (Z.eqb_spec a c); [lia|]. apply Z.ltb_lt. lia.
  - induction x as [|a x IH]; intros [|b y]; simpl; try done.
    intros Hne. destruct (Z.eqb_spec a b) as [->|Hab].
    + rewrite Z.eqb_refl. apply IH. congruence.
    + destruct (Z.eqb_spec b a); [congruence|].
      intros ?%Z.ltb_ge. apply Z.ltb_lt. lia.
Qed.

Lemma ngram_ltb_strict_total : strict_total ngram_ltb.
Proof.
  pose proof str_ltb_strict_total as Hstr. pose proof Hstr as [Hirr Htr Htot].
  unfold ngram_ltb. split.
  - intros [x1 x2]. simpl. by rewrite bool_decide_eq_true_2.
  - intros [x1 x2] [y1 y2] [z1 z2]. simpl.
    repeat case_bool_decide; subst; try done; try by apply Htr.
    + intros H1 H2. apply (strict_total_asym str_ltb) in H1; [congruence|done].
  - intros [x1 x2] [y1 y2] Hne. simpl.
    repeat case_bool_decide; subst; try done.
    + apply Htot. congruence.
    + by apply Htot.
Qed.

End Orders.

Ltac compare_cases :=
  repeat match goal with
  | |- context [Z.compare ?a ?b] => destruct (Z.compare_spec a b)
  | |- context [Pos.compare_cont Eq ?a ?b] =>
      change (Pos.compare_cont Eq a b) with (Pos.compare a b);
      destruct (Pos.compare_spec a b)
  end.

Section FloatOrder.

(** On numbers, [<] and [==] are the order and the equality of the
    places. *)
Lemma float_lt_rank a b :
  isnan a = false → isnan b = false →
  float_lt a b = true ↔ rank_lt (float_rank a) (float_rank b).
Proof.
  unfold float_lt, SFltb, rank_lt.
  destruct a as [[]|[]| |[] ma ea], b as [[]|[]| |[] mb eb]; try done;
    intros _ _; simpl; compare_cases; simpl; split; try done; try lia.
Qed.

Lemma float_eq_rank a b :
  isnan a = false → isnan b = false →
  float_eq a b = true ↔ float_rank a = float_rank b.
Proof.
  unfold float_eq, SFeqb.
  destruct a as [[]|[]| |[] ma ea], b as [[]|[]| |[] mb eb]; try done;
    intros _ _; simpl; compare_cases; simpl; split; try done;
    try (intros [=]; lia); intros _; f_equal; try lia; f_equal; lia.
Qed.

Lemma rank_eq_components (r1 r2 : Z * Z * Z) :
  r1 = r2 ↔ r1.1.1 = r2.1.1 ∧ r1.1.2 = r2.1.2 ∧ r1.2 = r2.2.
Proof.
  destruct r1 as [[a1 a2] a3], r2 as [[b1 b2] b3]. simpl.
  split; [by intros [= -> -> ->]|by intros (-> & -> & ->)].
Qed.

Lemma float_rank_neg a :
  float_rank (float_neg a)
  = (- (float_rank a).1.1, - (float_rank a).1.2, - (float_rank a).2).
Proof.
  destruct a as [[]|[]| |[] m e]; simpl; try done; f_equal; f_equal; lia.
Qed.

Lemma isnan_neg a : isnan (float_neg a) = isnan a.
Proof. by destruct a. Qed.

(** Negating both sides turns [<] around and keeps [==]. *)
Lemma float_lt_neg a b :
  isnan a = false → isnan b = false →
  float_lt (float_neg a) (float_neg b) = float_lt b a.
Proof.
  intros Ha Hb. apply eq_true_iff_eq.
  rewrite !float_lt_rank by (by rewrite ?isnan_neg).
  rewrite !float_rank_neg. unfold rank_lt. simpl. lia.
Qed.

Lemma float_eq_neg a b :
  isnan a = false → isnan b = false →
  float_eq (float_neg a) (float_neg b) = float_eq a b.
Proof.
  intros Ha Hb. apply eq_true_iff_eq.
  rewrite !float_eq_rank by (by rewrite ?isnan_neg).
  rewrite !float_rank_neg, !rank_eq_components. simpl. lia.
Qed.

(** Of two numbers, one is smaller or they are equal, and only one of the
    three. *)
Lemma float_lt_false a b :
  isnan a = false → isnan b = false →
  float_lt a b = false ↔ float_lt b a = true ∨ float_eq a b = true.
Proof.
  intros Ha Hb. rewrite <- not_true_iff_false.
  rewrite !float_lt_rank, float_eq_rank, rank_eq_components by done.
  unfold rank_lt. lia.
Qed.

Lemma float_eq_false a b :
  isnan a = false → isnan b = false →
  float_eq a b = false ↔ float_lt a b = true ∨ float_lt b a = true.
Proof.
  intros Ha Hb. rewrite <- not_true_iff_false.
  rewrite !float_lt_rank, float_eq_rank, rank_eq_components by done.
  unfold rank_lt. lia.
Qed.

Lemma float_lt_trans a b c :
  isnan a = false → isnan b = false → isnan c = false →
  float_lt a b = true → float_lt b c = true → float_lt a c = true.
Proof.
  intros Ha Hb Hc. rewrite !float_lt_rank by done. unfold rank_lt. lia.
Qed.

Lemma float_lt_eq_trans a b c :
  isnan a = false → isnan b = false → isnan c = false →
  float_lt a b = true → float_eq b c = true → float_lt a c = true.
Proof.
  intros Ha Hb Hc. rewrite !float_lt_rank, float_eq_rank by done.
  intros Hlt <-. done.
Qed.

Lemma float_eq_lt_trans a b c :
  isnan a = false → isnan b = false → isnan c = false →
  float_eq a b = true → float_lt b c = true → float_lt a c = true.
Proof.
  intros Ha Hb Hc. rewrite !float_lt_rank, float_eq_rank by done.
  by intros ->.
Qed.

Lemma float_eq_trans a b c :
  isnan a = false → isnan b = false → isnan c = false →
  float_eq a b = true → float_eq b c = true → float_eq a c = true.
Proof.
  intros Ha Hb Hc. rewrite !float_eq_rank by done. by intros ->.
Qed.

Lemma float_eq_sym a b :
  isnan a = false → isnan b = false →
  float_eq a b = true → float_eq b a = true.
Proof. intros Ha Hb. by rewrite !float_eq_rank. Qed.

(** Rounding a mantissa that is not negative never gives [nan]. *)
Lemma iter_pos_preserves {A} (P : A → Prop) (f : A → A) :
  (∀ x, P x → P (f x)) →
  ∀ (n : positive) (x : A), P x → P (SpecFloat.iter_pos f n x).
Proof. intros Hf. induction n; simpl; auto. Qed.

Lemma shr_1_nonneg mrs : 0 ≤ shr_m mrs → 0 ≤ shr_m (shr_1 mrs).
Proof. destruct mrs as [[|[p|p|]|[p|p|]] r s]; simpl; lia. Qed.

Lemma shr_fexp_nonneg prec emax m e l :
  0 ≤ m → 0 ≤ shr_m (shr_fexp prec emax m e l).1.
Proof.
  intros Hm. unfold shr_fexp, shr.
  assert (0 ≤ shr_m (shr_record_of_loc m l)) by (by destruct l as [|[]]).
  destruct (_ - e); simpl; [done| |done].
  by apply (iter_pos_preserves (λ mrs, 0 ≤ shr_m mrs)); [apply shr_1_nonneg|].
Qed.

Lemma round_nearest_even_nonneg m l : 0 ≤ m → 0 ≤ round_nearest_even m l.
Proof. destruct l as [|[]]; simpl; try destruct (Z.even m); lia. Qed.

Lemma binary_round_aux_not_nan prec emax s m e l :
  0 ≤ m → isnan (binary_round_aux prec emax s m e l) = false.
Proof.
  intros Hm. unfold binary_round_aux.
  pose proof (shr_fexp_nonneg prec emax m e l Hm) as H1.
  destruct (shr_fexp prec emax m e l) as [mrs' e']. simpl in H1.
  pose proof (shr_fexp_nonneg prec emax
                (round_nearest_even (shr_m mrs') (loc_of_shr_record mrs'))
                e' loc_Exact (round_nearest_even_nonneg _ _ H1)) as H2.
  destruct (shr_fexp prec emax _ e' loc_Exact) as [mrs'' e'']. simpl in H2.
  destruct (shr_m mrs''); [done| |lia]. by destruct (_ <=? _).
Qed.

Lemma binary_normalize_not_nan prec emax m e szero :
  isnan (binary_normalize prec emax m e szero) = false.
Proof.
  destruct m; simpl; [done| |]; unfold binary_round;
    destruct (shl_align _ _ _); by apply binary_round_aux_not_nan.
Qed.

(** The difference of two finite numbers is a number (or an infinity). *)
Lemma float_sub_finite a b :
  isfinite a = true → isfinite b = true → isnan (float_sub a b) = false.
Proof.
  destruct a as [[]| | |sa ma ea], b as [[]| | |sb mb eb]; try done;
    intros _ _; apply binary_normalize_not_nan.
Qed.

Lemma log2_table_finite x : isfinite (log2_table x) = true.
Proof. unfold log2_table. repeat case_match; reflexivity. Qed.

End FloatOrder.

Section KeyOrder.
Variable math_log2 : positive → spec_float.
Hypothesis math_log2_finite : ∀ x, isfinite (math_log2 x) = true.

Lemma score_double_number s : isnan (score_double math_log2 s) = false.
Proof. apply float_sub_finite; apply math_log2_finite. Qed.

(** The key order, on the scores themselves. *)
Lemma key_ltb_scores x y :
  key_ltb math_log2 x y
  = if float_eq (score_double math_log2 x.2) (score_double math_log2 y.2)
    then ngram_ltb x.1 y.1
    else float_lt (score_double math_log2 y.2) (score_double math_log2 x.2).
Proof.
  unfold key_ltb. cbv zeta.
  by rewrite float_eq_neg, float_lt_neg by apply score_double_number.
Qed.

(** An entry does not have to go before another one when its score is
    smaller, or the same with a pair that is not smaller. *)
Lemma key_ltb_false x y :
  key_ltb math_log2 x y = false ↔
    float_lt (score_double math_log2 x.2) (score_double math_log2 y.2) = true
    ∨ (float_eq (score_double math_log2 x.2) (score_double math_log2 y.2) = true
       ∧ ngram_ltb x.1 y.1 = false).
Proof.
  rewrite key_ltb_scores.
  pose proof (score_double_number x.2) as Hx.
  pose proof (score_double_number y.2) as Hy.
  destruct (float_eq _ _) eqn:Eeq.
  - split; [by right|]. intros [Hlt|[_ ?]]; [|done].
    assert (float_eq (score_double math_log2 x.2) (score_double math_log2 y.2)
            = false); [|congruence].
    apply float_eq_false; auto.
  - rewrite float_lt_false by done. split.
    + intros [?|Heq]; [by left|].
      apply float_eq_sym in Heq; [congruence|done|done].
    + intros [?|[? _]]; [by left|done].
Qed.

Lemma key_ltb_asym x y :
  key_ltb math_log2 x y = true → key_ltb math_log2 y x = false.
Proof.
  intros Hxy. apply key_ltb_false. rewrite key_ltb_scores in Hxy.
  pose proof (score_double_number x.2) as Hx.
  pose proof (score_double_number y.2) as Hy.
  destruct (float_eq _ _) eqn:Eeq.
  - right. split; [by apply float_eq_sym|].
    by apply strict_total_asym; [apply ngram_ltb_strict_total|].
  - by left.
Qed.

Lemma key_ltb_ge_trans x y z :
  key_ltb math_log2 x y = false → key_ltb math_log2 y z = false →
  key_ltb math_log2 x z = false.
Proof.
  rewrite !key_ltb_false.
  pose proof (score_double_number x.2) as Hx.
  pose proof (score_double_number y.2) as Hy.
  pose proof (score_double_number z.2) as Hz.
  intros [Hxy|[Hxy Nxy]] [Hyz|[Hyz Nyz]].
  - left. by apply (float_lt_trans _ (score_double math_log2 y.2)).
  - left. by apply (float_lt_eq_trans _ (score_double math_log2 y.2)).
  - left. by apply (float_eq_lt_trans _ (score_double math_log2 y.2)).
  - right. split; [by apply (float_eq_trans _ (score_double math_log2 y.2))|].
    eapply strict_total_ge_trans; [apply ngram_ltb_strict_total|done|done].
Qed.

End KeyOrder.


Section Finder.
Variable math_log2 : positive → spec_float.

Lemma Counter_entry {K} `{EqDecision K} (p : list K) t c :
  (t, c) ∈ Counter p ↔ t ∈ p ∧ c = occurrences t p.
Proof.
  destruct (Counter_counted p) as (Hnd & Hkeys & Hget & _). split.
  - intros Hin. split.
    + apply Hkeys, list_elem_of_fmap. by exists (t, c).
    + rewrite <- Hget. symmetry. by apply dict_get_elem.
  - intros [Hin ->]. rewrite <- Hget. by apply dict_get_lookup, Hkeys.
Qed.

Lemma from_words_loop_counts words wfd bfd :
  from_words_loop words wfd bfd
  = (_count_elements wfd words, _count_elements bfd (adjacent_pairs words)).
Proof.
  revert wfd bfd. induction words as [|w1 rest IH]; intros wfd bfd; [done|].
  destruct rest as [|w2 rest]; [done|].
  change (from_words_loop (w1 :: w2 :: rest) wfd bfd)
    with (from_words_loop (w2 :: rest)
            (dict_set wfd w1 (dict_get wfd w1 0 + 1))
            (dict_set bfd (w1, w2) (dict_get bfd (w1, w2) 0 + 1))).
  by rewrite IH.
Qed.

Lemma FreqDist_N_set {K} `{EqDecision K} (d : list (K * Z)) k v :
  FreqDist_N (dict_set d k v) = FreqDist_N d - dict_get d k 0 + v.
Proof.
  induction d as [|[k' v'] d IH]; simpl; [lia|].
  destruct (decide (k' = k)); simpl; lia.
Qed.

Lemma FreqDist_N_Counter {K} `{EqDecision K} (p : list K) :
  FreqDist_N (Counter p) = Z.of_nat (length p).
Proof.
  unfold Counter, _count_elements.
  induction p as [|x p IH] using rev_ind; [done|].
  rewrite fold_left_app, length_app. simpl.
  rewrite FreqDist_N_set, IH. lia.
Qed.

Lemma dict_set_fresh {K} `{EqDecision K} (d : list (K * Z)) k v :
  k ∉ d.*1 → dict_set d k v = d ++ [(k, v)].
Proof.
  induction d as [|[k' v'] d IH]; [done|].
  rewrite fmap_cons. intros [Hne Hin]%not_elem_of_cons. simpl in *.
  rewrite decide_False by done. by rewrite IH.
Qed.

Lemma freq_filter_loop {K} `{EqDecision K} (min_freq : Z)
    (items tmp : list (K * Z)) :
  NoDup (tmp.*1 ++ items.*1) →
  fold_left
    (λ tmp item, if negb (item.2 <? min_freq) then dict_set tmp item.1 item.2
                 else tmp)
    items tmp
  = tmp ++ filter (λ item, min_freq ≤ item.2) items.
Proof.
  revert tmp. induction items as [|[k v] items IH]; intros tmp Hnd.
  { by rewrite app_nil_r. }
  rewrite fmap_cons in Hnd. cbn [fold_left fst snd].
  rewrite filter_cons. cbn [snd].
  assert (Hfresh : k ∉ tmp.*1).
  { apply NoDup_app in Hnd as (_ & Hdisj & _). intros Hin.
    apply (Hdisj k Hin). left. }
  destruct (Z.ltb_spec v min_freq); simpl.
  - rewrite decide_False by lia. apply IH.
    apply NoDup_app in Hnd as (Ht & Hdisj & [_ Hi]%NoDup_cons).
    apply NoDup_app. split; [done|]. split; [|done].
    intros x Hx Hx'. apply (Hdisj x Hx). by right.
  - rewrite decide_True by lia. rewrite dict_set_fresh by done.
    rewrite IH; [by rewrite <- app_assoc|].
    rewrite fmap_app, <- app_assoc. done.
Qed.

Lemma filter_Forall_id {A} (P : A → Prop) `{∀ x, Decision (P x)} (l : list A) :
  Forall P l → filter P l = l.
Proof.
  induction 1 as [|x l Hx _ IH]; [done|].
  by rewrite filter_cons, decide_True, IH.
Qed.

(** The finder that scores, in terms of the tokens. *)
Lemma collocations_finder (tokens : list (list Z)) (args_min_freq : Z) :
  collocations math_log2 tokens args_min_freq
  = score_ngrams math_log2
      {| word_fd := Counter tokens;
         finder_N := Z.of_nat (length tokens);
         ngram_fd := frequent_pairs tokens (Z.max 1 args_min_freq) |}.
Proof.
  unfold collocations, from_words. rewrite from_words_loop_counts.
  cbn [fst snd]. fold (Counter tokens). fold (Counter (adjacent_pairs tokens)).
  rewrite FreqDist_N_Counter. unfold frequent_pairs.
  destruct (Z.gtb_spec (Z.max 1 args_min_freq) 1) as [Hgt|Hle].
  - unfold apply_freq_filter. cbn [word_fd finder_N ngram_fd].
    rewrite freq_filter_loop; [done|].
    by destruct (Counter_counted (adjacent_pairs tokens)) as (Hnd & _).
  - rewrite filter_Forall_id; [done|].
    apply Forall_forall. intros [bg c] [Hin ->]%Counter_entry.
    apply occurrences_pos in Hin. simpl. lia.
Qed.

Lemma FreqDist_iter_perm {K} `{EqDecision K} (fd : list (K * Z)) :
  FreqDist_iter fd ≡ₚ fd.*1.
Proof.
  unfold FreqDist_iter, most_common, FreqDist_B. rewrite nlargest_take.
  rewrite take_ge; [by rewrite sorted_desc_perm|].
  rewrite sorted_desc_perm. lia.
Qed.

Lemma adjacent_pairs_elem {A} (l : list A) a b :
  (a, b) ∈ adjacent_pairs l → a ∈ l ∧ b ∈ l.
Proof.
  induction l as [|x l IH]; [by intros ?%elem_of_nil|].
  destruct l as [|y l]; [by intros ?%elem_of_nil|].
  change (adjacent_pairs (x :: y :: l)) with ((x, y) :: adjacent_pairs (y :: l)).
  intros [[= -> ->]|Hin]%elem_of_cons.
  - split; [left|right; left].
  - apply IH in Hin as [? ?]. split; by right.
Qed.

Lemma adjacent_pairs_length {A} (l : list A) :
  length (adjacent_pairs l) = pred (length l).
Proof.
  induction l as [|x l IH]; [done|].
  destruct l as [|y l]; [done|].
  change (adjacent_pairs (x :: y :: l)) with ((x, y) :: adjacent_pairs (y :: l)).
  simpl in *. by rewrite IH.
Qed.

Lemma frequent_pairs_entry tokens min_freq bg c :
  (bg, c) ∈ frequent_pairs tokens min_freq ↔
    bg ∈ adjacent_pairs tokens ∧ c = occurrences bg (adjacent_pairs tokens)
    ∧ min_freq ≤ c.
Proof.
  unfold frequent_pairs. rewrite list_elem_of_filter, Counter_entry.
  simpl. tauto.
Qed.

Lemma frequent_pairs_NoDup tokens min_freq :
  NoDup (frequent_pairs tokens min_freq).*1.
Proof.
  destruct (Counter_counted (adjacent_pairs tokens)) as (Hnd & _).
  eapply sublist_NoDup; [exact Hnd|].
  apply fmap_sublist, sublist_filter.
Qed.

Lemma _log2_pos x : 0 < x → _log2 x = Returns (Z.to_pos x).
Proof. destruct x; [lia|done|lia]. Qed.

(** Every pair that passed the filter gets its score. *)
Lemma score_ngram_frequent tokens min_freq bg :
  bg ∈ (frequent_pairs tokens min_freq).*1 →
  score_ngram
    {| word_fd := Counter tokens;
       finder_N := Z.of_nat (length tokens);
       ngram_fd := frequent_pairs tokens min_freq |} bg.1 bg.2
  = Returns (Some (pmi_of tokens bg)).
Proof.
  intros ([bg' c] & -> & Hin)%list_elem_of_fmap. simpl.
  pose proof Hin as (Hbg & -> & Hmin)%frequent_pairs_entry.
  destruct bg' as [w1 w2].
  pose proof (adjacent_pairs_elem _ _ _ Hbg) as [Hw1 Hw2].
  destruct (Counter_counted tokens) as (_ & _ & Hget & _).
  unfold score_ngram. cbn [word_fd finder_N ngram_fd fst snd].
  rewrite (dict_get_elem _ _ _ 0 (frequent_pairs_NoDup tokens min_freq) Hin).
  apply occurrences_pos in Hbg, Hw1, Hw2.
  assert (0 < Z.of_nat (length tokens)).
  { destruct tokens; [by apply occurrences_pos, elem_of_nil in Hw1|simpl; lia]. }
  destruct (Z.eqb_spec (occurrences (w1, w2) (adjacent_pairs tokens)) 0);
    [lia|].
  unfold pmi. cbn [fst snd]. rewrite !Hget.
  change (Z.of_nat (length tokens) ^ (2 - 1))
    with (Z.of_nat (length tokens) ^ 1).
  rewrite Z.pow_1_r, !_log2_pos by lia. done.
Qed.

Lemma _score_ngrams_total finder (score : bigram → pmi_score) tups :
  (∀ tup, tup ∈ tups →
          score_ngram finder tup.1 tup.2 = Returns (Some (score tup))) →
  _score_ngrams finder tups = Returns (map (λ tup, (tup, score tup)) tups).
Proof.
  induction tups as [|tup tups IH]; intros Hall; [done|].
  simpl. rewrite Hall by left. rewrite IH; [done|].
  intros tup' Hin. apply Hall. by right.
Qed.

(** What the scoring returns: never an error, and the surviving pairs with
    their scores, sorted on the key. *)
Lemma collocations_scored (tokens : list (list Z)) (args_min_freq : Z) :
  collocations math_log2 tokens args_min_freq
  = Returns
      (sorted (λ x y, key_ltb math_log2 y x)
         (map (λ bg, (bg, pmi_of tokens bg))
            (FreqDist_iter (frequent_pairs tokens (Z.max 1 args_min_freq))))).
Proof.
  rewrite collocations_finder. unfold score_ngrams. cbn [ngram_fd].
  rewrite (_score_ngrams_total _ (pmi_of tokens)); [done|].
  intros tup Hin. apply score_ngram_frequent.
  by rewrite <- FreqDist_iter_perm.
Qed.

End Finder.

Section ScoreValues.
Local Open Scope R_scope.

Lemma ln2_pos : 0 < ln 2.
Proof. pose proof ln_lt_2. lra. Qed.

Lemma log2R_div x y : 0 < x → 0 < y → log2R (x / y) = log2R x - log2R y.
Proof.
  intros Hx Hy. unfold log2R, Rdiv.
  rewrite ln_mult by (try apply Rinv_0_lt_compat; done).
  rewrite ln_Rinv by done. pose proof ln2_pos. field. lra.
Qed.

Lemma log2R_increasing x y : 0 < x → x < y → log2R x < log2R y.
Proof.
  intros Hx Hxy. unfold log2R. pose proof ln2_pos.
  apply Rmult_lt_compat_r; [by apply Rinv_0_lt_compat|].
  by apply ln_increasing.
Qed.

Lemma log2R_2 : log2R 2 = 1.
Proof. unfold log2R. pose proof ln2_pos. field. lra. Qed.

Lemma log2R_inj x y : 0 < x → 0 < y → log2R x = log2R y → x = y.
Proof.
  intros Hx Hy Heq. apply ln_inv; [done|done|].
  unfold log2R in Heq. pose proof ln2_pos.
  apply (Rmult_eq_reg_r (/ ln 2)); [done|].
  apply Rinv_neq_0_compat. lra.
Qed.

Lemma IZR_pos_lt p : 0 < IZR (Zpos p).
Proof. apply IZR_lt. lia. Qed.

(** The score of a pair is the logarithm of the ratio of the pair's
    relative frequency to the product of the words' relative frequencies,
    all three taken over the number of tokens. *)
Lemma pmi_of_value (tokens : list (list Z)) (bg : list Z * list Z) :
  bg ∈ adjacent_pairs tokens →
  let total := IZR (Z.of_nat (length tokens)) in
  let P_pair := IZR (occurrences bg (adjacent_pairs tokens)) / total in
  let P w := IZR (occurrences w tokens) / total in
  score_value (pmi_of tokens bg) = log2R (P_pair / (P bg.1 * P bg.2)).
Proof.
  intros Hbg total P_pair P. destruct bg as [w1 w2]. cbn [fst snd].
  pose proof (adjacent_pairs_elem _ _ _ Hbg) as [Hw1 Hw2].
  apply occurrences_pos in Hbg, Hw1, Hw2.
  assert (Hlen : (0 < Z.of_nat (length tokens))%Z).
  { destruct tokens; [by apply occurrences_pos, elem_of_nil in Hw1|simpl; lia]. }
  unfold score_value, pmi_of. cbn [log2_arg minus_log2_arg fst snd].
  rewrite !Z2Pos.id by lia. rewrite !mult_IZR.
  apply IZR_lt in Hbg, Hw1, Hw2, Hlen.
  rewrite <- log2R_div by (by apply Rmult_lt_0_compat).
  f_equal. unfold P_pair, P, total. field. lra.
Qed.

End ScoreValues.

Section Collocations.
Variable math_log2 : positive → spec_float.

Lemma scored_keys {B} (g : (list Z * list Z) → B) (xs : list (list Z * list Z)) :
  (map (λ bg, (bg, g bg)) xs).*1 = xs.
Proof. induction xs as [|x xs IH]; [done|]. simpl. f_equal. apply IH. Qed.

(** The pairs that are scored are the pairs that passed the filter. *)
Lemma scored_pairs_perm tokens min_freq :
  (sorted (λ x y, key_ltb math_log2 y x)
     (map (λ bg, (bg, pmi_of tokens bg))
        (FreqDist_iter (frequent_pairs tokens min_freq)))).*1
  ≡ₚ (frequent_pairs tokens min_freq).*1.
Proof.
  by rewrite sorted_perm, (scored_keys (pmi_of tokens)), FreqDist_iter_perm.
Qed.

Lemma scored_entry tokens min_freq bg s :
  (bg, s) ∈ sorted (λ x y, key_ltb math_log2 y x)
              (map (λ bg, (bg, pmi_of tokens bg))
                 (FreqDist_iter (frequent_pairs tokens min_freq))) →
  s = pmi_of tokens bg ∧ bg ∈ (frequent_pairs tokens min_freq).*1.
Proof.
  rewrite sorted_perm. intros (bg' & [= -> ->] & Hin)%list_elem_of_fmap.
  split; [done|]. by rewrite <- FreqDist_iter_perm.
Qed.

Lemma frequent_pairs_key tokens min_freq bg :
  bg ∈ (frequent_pairs tokens min_freq).*1 ↔
    bg ∈ adjacent_pairs tokens
    ∧ min_freq ≤ occurrences bg (adjacent_pairs tokens).
Proof.
  rewrite list_elem_of_fmap. split.
  - intros ([bg' c] & -> & (? & -> & ?)%frequent_pairs_entry). done.
  - intros [Hin Hmin]. exists (bg, occurrences bg (adjacent_pairs tokens)).
    split; [done|]. by apply frequent_pairs_entry.
Qed.

Lemma adjacent_pairs_lookup {A} (l : list A) (i : nat) a b :
  adjacent_pairs l !! i = Some (a, b) ↔
    l !! i = Some a ∧ l !! S i = Some b.
Proof.
  revert i. induction l as [|x l IH]; intros i.
  { simpl. rewrite !lookup_nil. split; [done|by intros [? ?]]. }
  destruct l as [|y l].
  { simpl. rewrite lookup_nil. split; [done|]. intros [_ Hb].
    by rewrite lookup_nil in Hb. }
  change (adjacent_pairs (x :: y :: l)) with ((x, y) :: adjacent_pairs (y :: l)).
  destruct i as [|i].
  { simpl. split; [by intros [= -> ->]|by intros [[= ->] [= ->]]]. }
  change (((x, y) :: adjacent_pairs (y :: l)) !! S i)
    with (adjacent_pairs (y :: l) !! i).
  by rewrite IH.
Qed.

End Collocations.

(** * The model on examples *)

Section Examples.
Variables isdecimal_beyond_ascii isalnum_beyond_ascii : Z → bool.

Example normalize_example :
  normalize_arabic [0x0623; 0x064E; 0x0640; 0x0649; 0x20; 0x0629; 0x41] true
  = [0x0627; 0x064A; 0x20; 0x0647; 0x41]
  ∧ normalize_arabic [0x0623; 0x064E; 0x0640; 0x0649; 0x20; 0x0629; 0x41] false
    = [0x0627; 0x064A; 0x20; 0x0629; 0x41].
Proof. split; reflexivity. Qed.

Example tokenize_example :
  tokenize_ar [0x0628; 0x0629; 0x0640; 0x0628; 0x20; 0x0627; 0x31; 0x0628]
  = [[0x0628; 0x0629]; [0x0628]; [0x0627]; [0x0628]].
Proof. reflexivity. Qed.

Example split_example :
  split COMMA (ascii_str " ,a, ,b ,,")
  = map ascii_str [" "; "a"; " "; "b "; ""; ""]%string
  ∧ split COMMA [] = [[]]
  ∧ strip (ascii_str "  b ") = ascii_str "b".
Proof. repeat split; reflexivity. Qed.

Example numbers_example :
  extract_numbers_excluding_dates isdecimal_beyond_ascii isalnum_beyond_ascii
    (ascii_str "2025-09-09 and 120 3.14 x12 1/2/2024 5.")
  = map ascii_str ["120"; "3.14"; "5"]%string
  ∧ extract_dates isdecimal_beyond_ascii isalnum_beyond_ascii
      (ascii_str "2025-09-09 and 120 3.14 x12 1/2/2024 5.")
    = map ascii_str ["2025-09-09"; "1/2/2024"]%string.
Proof. split; vm_compute; reflexivity. Qed.

Example most_common_example :
  let abracadabra := map (λ c, [c]) (ascii_str "abracadabra") in
  most_common (Counter abracadabra) 3
  = [(ascii_str "a", 5); (ascii_str "b", 2); (ascii_str "r", 2)]
  ∧ most_common (Counter abracadabra) 1 = [(ascii_str "a", 5)]
  ∧ most_common (Counter abracadabra) (-1) = [].
Proof. repeat split; vm_compute; reflexivity. Qed.

Example collocations_example :
  collocations log2_table (map ascii_str ["a"; "b"; "a"; "b"]%string) 2
  = Returns
      [(ascii_str "a", ascii_str "b", {| log2_arg := 8; minus_log2_arg := 4 |})]
  ∧ collocations log2_table [ascii_str "a"] 2 = Returns []
  ∧ collocations log2_table [] 2 = Returns [].
Proof. repeat split; vm_compute; reflexivity. Qed.

(** Scores that are equal as real numbers need not be computed equal: on
    [["a","b","c","b","c","b","c"]] the score of [("a","b")] is
    [log2(7) - log2(3) = 0x1.38eeb5b084af2p+0] (1.222392421336448), that of
    [("b","c")] is [log2(21) - log2(9) = 0x1.38eeb5b084af4p+0]
    (1.2223924213364485), and [("b","c")] is listed first. *)
Example collocations_rounding_example :
  collocations log2_table
    (map ascii_str ["a"; "b"; "c"; "b"; "c"; "b"; "c"]%string) 1
  = Returns
      [(ascii_str "b", ascii_str "c", {| log2_arg := 21; minus_log2_arg := 9 |});
       (ascii_str "a", ascii_str "b", {| log2_arg := 7; minus_log2_arg := 3 |});
       (ascii_str "c", ascii_str "b", {| log2_arg := 14; minus_log2_arg := 9 |})]
  ∧ score_double log2_table {| log2_arg := 21; minus_log2_arg := 9 |}
    = S754_finite false 0x138eeb5b084af4 (-52)
  ∧ score_double log2_table {| log2_arg := 7; minus_log2_arg := 3 |}
    = S754_finite false 0x138eeb5b084af2 (-52)
  ∧ score_double log2_table {| log2_arg := 14; minus_log2_arg := 9 |}
    = S754_finite false 0x1465d36ed11b14 (-53)
  ∧ score_value {| log2_arg := 21; minus_log2_arg := 9 |}
    = score_value {| log2_arg := 7; minus_log2_arg := 3 |}.
Proof.
  repeat split; try (vm_compute; reflexivity).
  unfold score_value. cbn [log2_arg minus_log2_arg].
  rewrite <- !log2R_div by lra. f_equal. lra.
Qed.

End Examples.

(** * The claims *)

(** C1, as the code has it: every scored pair gets
    [log2(P(w1,w2) / (P(w1) * P(w2)))] where all three probabilities are
    counts over the number of tokens [L] (the pair's count is divided by
    [L] too, not by the number [L-1] of pair positions); for
    [["a","b","a","b"]] and a minimum frequency of 1 the score of
    [("a","b")] is [log2((2/4) / ((2/4) * (2/4)))]. *)
Theorem pmi_over_token_total (math_log2 : positive → spec_float)
    (tokens : list (list Z)) (minFreq : Z) :
  (∃ scored,
     collocations math_log2 tokens minFreq = Returns scored
     ∧ ∀ bg s, (bg, s) ∈ scored →
         let total := IZR (Z.of_nat (length tokens)) in
         let P_pair :=
           (IZR (occurrences bg (adjacent_pairs tokens)) / total)%R in
         let P w := (IZR (occurrences w tokens) / total)%R in
         score_value s = log2R (P_pair / (P bg.1 * P bg.2)))
  ∧ (∃ s rest,
       collocations log2_table (map ascii_str ["a"; "b"; "a"; "b"]%string) 1
       = Returns ((ascii_str "a", ascii_str "b", s) :: rest)
       ∧ score_value s = log2R ((2 / 4) / ((2 / 4) * (2 / 4)))).
Proof.
  split.
  - eexists. split; [apply collocations_scored|].
    intros bg s [-> Hin]%scored_entry.
    apply pmi_of_value. by apply frequent_pairs_key in Hin as [? _].
  - eexists _, _. split; [vm_compute; reflexivity|].
    unfold score_value. cbn [log2_arg minus_log2_arg].
    rewrite <- log2R_div by lra. f_equal. lra.
Qed.

(** C1, the counterexample: on [["a","b","a","b"]] with a minimum frequency
    of 1 the pair [("a","b")] is scored [log2(2 * 4) - log2(2 * 2) = 1],
    which is not [log2((2/3) / ((2/4) * (2/4)))]. *)
Lemma pmi_not_over_pair_total :
  collocations log2_table (map ascii_str ["a"; "b"; "a"; "b"]%string) 1
  = Returns
      [(ascii_str "a", ascii_str "b", {| log2_arg := 8; minus_log2_arg := 4 |});
       (ascii_str "b", ascii_str "a", {| log2_arg := 4; minus_log2_arg := 4 |})]
  ∧ score_value {| log2_arg := 8; minus_log2_arg := 4 |} = 1%R
  ∧ score_value {| log2_arg := 8; minus_log2_arg := 4 |}
    ≠ log2R ((2 / 3) / ((2 / 4) * (2 / 4))).
Proof.
  assert (Hone : score_value {| log2_arg := 8; minus_log2_arg := 4 |} = 1%R).
  { unfold score_value. cbn [log2_arg minus_log2_arg].
    rewrite <- log2R_div by lra. rewrite <- log2R_2. f_equal. lra. }
  split; [vm_compute; reflexivity|]. split; [exact Hone|].
  rewrite Hone, <- log2R_2. intros Heq%log2R_inj; lra.
Qed.

(** C2, as the code has it: the scored pairs, and any first [topN] of them,
    are in decreasing order of the score that is computed, a [float], and
    pairs whose computed scores are equal are in increasing lexicographic
    order of the pair (first word, then second word, compared by code
    points), whatever their order of encounter; so are, in particular, two
    pairs with the same counts.  Scores that are equal as real numbers but
    are computed as different [float]s are ordered as these [float]s.
    [math.log2] is taken to return finite numbers. *)
Theorem scored_order (math_log2 : positive → spec_float)
    (tokens : list (list Z)) (minFreq : Z) (topN : nat) :
  (∀ x, isfinite (math_log2 x) = true) →
  ∃ scored,
    collocations math_log2 tokens minFreq = Returns scored
    ∧ ∀ (i j : nat) bg1 s1 bg2 s2,
        take topN scored !! i = Some (bg1, s1) →
        take topN scored !! j = Some (bg2, s2) →
        (i < j)%nat →
        (float_lt (score_double math_log2 s2) (score_double math_log2 s1) = true
         ∨ (float_eq (score_double math_log2 s1) (score_double math_log2 s2)
            = true
            ∧ ngram_ltb bg1 bg2 = true))
        ∧ (s1 = s2 → ngram_ltb bg1 bg2 = true).
Proof.
  intros Hfinite. eexists. split; [apply collocations_scored|].
  set (scored := sorted _ _).
  intros i j bg1 s1 bg2 s2 Hi Hj Hij.
  apply lookup_take_Some in Hi as [Hi _]. apply lookup_take_Some in Hj as [Hj _].
  assert (Hsorted : StronglySorted
            (in_order (λ x y, key_ltb math_log2 y x) (λ _ _, True)) scored).
  { apply sorted_in_order; [|by eauto using key_ltb_ge_trans
                            |apply StronglySorted_always].
    intros x y Hyx. by apply key_ltb_asym. }
  destruct (StronglySorted_lookup _ _ _ _ _ _ Hsorted Hi Hj Hij) as [Hord _].
  apply key_ltb_false in Hord as [Hlt|[Heq Hge]]; [| |done]; cbn [fst snd] in *.
  - split; [by left|]. intros ->.
    pose proof (score_double_number math_log2 Hfinite s2) as Hnum.
    assert (float_lt (score_double math_log2 s2) (score_double math_log2 s2)
            = false); [|congruence].
    apply float_lt_false; [done|done|]. right.
    by apply float_eq_rank.
  - assert (Hpair : ngram_ltb bg1 bg2 = true).
    { apply (st_total _ ngram_ltb_strict_total); [|done].
      intros ->.
      assert (Hnd : NoDup scored.*1).
      { unfold scored. rewrite scored_pairs_perm. apply frequent_pairs_NoDup. }
      assert (i = j); [|lia].
      eapply NoDup_lookup; [exact Hnd| |];
        rewrite list_lookup_fmap; [by rewrite Hi|by rewrite Hj]. }
    split; [|done]. right. split; [|done].
    apply float_eq_sym; [| |done]; by apply score_double_number.
Qed.

(** C2 on [["a","b","c","b","c","b","c"]], with the values of [math.log2]
    at the integers met. *)
Lemma scored_order_witness :
  (∀ x, isfinite (log2_table x) = true)
  ∧ ∃ scored,
      collocations log2_table
        (map ascii_str ["a"; "b"; "c"; "b"; "c"; "b"; "c"]%string) 1
      = Returns scored
      ∧ ∀ (i j : nat) bg1 s1 bg2 s2,
          take 3 scored !! i = Some (bg1, s1) →
          take 3 scored !! j = Some (bg2, s2) →
          (i < j)%nat →
          (float_lt (score_double log2_table s2) (score_double log2_table s1)
           = true
           ∨ (float_eq (score_double log2_table s1) (score_double log2_table s2)
              = true
              ∧ ngram_ltb bg1 bg2 = true))
          ∧ (s1 = s2 → ngram_ltb bg1 bg2 = true).
Proof.
  split; [exact log2_table_finite|].
  exact (scored_order log2_table
           (map ascii_str ["a"; "b"; "c"; "b"; "c"; "b"; "c"]%string) 1 3
           log2_table_finite).
Defined.

(** C2, the counterexample: on [["c","b","a"]] with a minimum frequency of
    1 the two pairs have the same score, [log2(1 * 3) - log2(1 * 1)]
    (computed as [0x1.95c01a39fbd68p+0]); [("c","b")] is met first, both in
    the token sequence and in the enumeration that scores, and yet
    [("b","a")] is listed first. *)
Lemma equal_scores_not_in_encounter_order :
  collocations log2_table (map ascii_str ["c"; "b"; "a"]%string) 1
  = Returns
      [(ascii_str "b", ascii_str "a", {| log2_arg := 3; minus_log2_arg := 1 |});
       (ascii_str "c", ascii_str "b", {| log2_arg := 3; minus_log2_arg := 1 |})]
  ∧ score_double log2_table {| log2_arg := 3; minus_log2_arg := 1 |}
    = S754_finite false 0x195c01a39fbd68 (-52)
  ∧ adjacent_pairs (map ascii_str ["c"; "b"; "a"]%string)
    = [(ascii_str "c", ascii_str "b"); (ascii_str "b", ascii_str "a")]
  ∧ FreqDist_iter (ngram_fd (from_words (map ascii_str ["c"; "b"; "a"]%string)))
    = [(ascii_str "c", ascii_str "b"); (ascii_str "b", ascii_str "a")].
Proof. repeat split; vm_compute; reflexivity. Qed.

(** C3: the pairs that are scored are exactly the adjacent pairs of the
    token sequence (window of 2, step 1, one position less than tokens)
    whose own count is at least [max(1, minFreq)], each once; fewer than two
    tokens give no pair, and the scoring never fails. *)
Theorem scored_bigrams_spec (math_log2 : positive → spec_float)
    (tokens : list (list Z)) (minFreq : Z) :
  ∃ scored,
    collocations math_log2 tokens minFreq = Returns scored
    ∧ (∀ bg, bg ∈ scored.*1 ↔
         bg ∈ adjacent_pairs tokens
         ∧ Z.max 1 minFreq ≤ occurrences bg (adjacent_pairs tokens))
    ∧ NoDup scored.*1
    ∧ (∀ i a b, adjacent_pairs tokens !! i = Some (a, b) ↔
         tokens !! i = Some a ∧ tokens !! S i = Some b)
    ∧ length (adjacent_pairs tokens) = (length tokens - 1)%nat
    ∧ ((length tokens < 2)%nat → scored = []).
Proof.
  eexists. split; [apply collocations_scored|].
  pose proof (scored_pairs_perm math_log2 tokens (Z.max 1 minFreq)) as Hperm.
  split; [|split; [|split; [|split]]].
  - intros bg. by rewrite Hperm, frequent_pairs_key.
  - rewrite Hperm. apply frequent_pairs_NoDup.
  - intros i a b. apply adjacent_pairs_lookup.
  - rewrite adjacent_pairs_length. lia.
  - intros Hlen.
    assert (Hnone : adjacent_pairs tokens = [])
      by (destruct tokens as [|? [|? ?]]; [done|done|simpl in Hlen; lia]).
    unfold frequent_pairs. by rewrite Hnone.
Qed.

(** C4: the stopword/length filter returns an order-preserving subsequence
    of the input, without deduplication, that keeps a token exactly when it
    is absent from the stopword set and its length is at least [min_len];
    with [min_len <= 0] exactly the non-stopword tokens are kept. *)
Theorem remove_stopwords_spec (tokens : list (list Z))
    (stop_set : gset (list Z)) (min_len : Z) :
  let result := remove_stopwords tokens stop_set min_len in
  result = filter (kept stop_set min_len) tokens
  ∧ result `sublist_of` tokens
  ∧ (∀ t, t ∈ result ↔
          t ∈ tokens ∧ (t ∉ stop_set) ∧ min_len ≤ Z.of_nat (length t))
  ∧ (∀ t, (t ∉ stop_set) → min_len ≤ Z.of_nat (length t) →
          occurrences t result = occurrences t tokens)
  ∧ (∀ t, occurrences t result ≤ occurrences t tokens)
  ∧ (min_len ≤ 0 → result = filter (λ t, t ∉ stop_set) tokens).
Proof.
  intros result. unfold result. clear result.
  rewrite (remove_stopwords_filter tokens stop_set min_len).
  split; [done|]. split; [apply sublist_filter|].
  split; [intros t; rewrite list_elem_of_filter; unfold kept; tauto|].
  split; [intros t Hs Hl; by apply occurrences_filter|].
  split.
  - intros t. unfold occurrences. apply inj_le, sublist_length.
    induction tokens as [|y l IH]; [done|].
    rewrite (filter_cons (kept _ _)). destruct (decide (kept _ _ y)).
    + rewrite !filter_cons. destruct (decide (y = t)); [by apply sublist_skip|done].
    + rewrite (filter_cons (λ y, y = t)).
      destruct (decide (y = t)); [by apply sublist_cons|done].
  - intros Hmin. apply list_filter_iff. intros t. unfold kept.
    split; [tauto|]. intros Hs. split; [done|lia].
Qed.

(** C5: the frequency list holds (token, count) entries for distinct tokens
    of the input, the highest counts first and equal counts in the order of
    first appearance; a token left out never outranks a returned one; for
    [k >= 0] the length is the smaller of [k] and the number of distinct
    tokens; [k <= 0] and the empty input give the empty list. *)
Theorem top_frequent_spec (tokens : list (list Z)) (k : Z) :
  let result := top_frequent tokens k in
  let count t := occurrences t tokens in
  let first t := first_index t tokens in
  (∀ t c, (t, c) ∈ result → t ∈ tokens ∧ c = count t)
  ∧ NoDup result.*1
  ∧ (∀ i j t1 c1 t2 c2,
       result !! i = Some (t1, c1) → result !! j = Some (t2, c2) →
       (i < j)%nat →
       c2 < c1 ∨ (c1 = c2 ∧ (first t1 < first t2)%nat))
  ∧ (∀ t c t', (t, c) ∈ result → t' ∈ tokens → t' ∉ result.*1 →
       count t' < c ∨ (c = count t' ∧ (first t < first t')%nat))
  ∧ (0 ≤ k →
     length result = Nat.min (Z.to_nat k) (length (remove_dups tokens)))
  ∧ (k ≤ 0 → result = [])
  ∧ (tokens = [] → result = []).
Proof.
  intros result count first. unfold result, top_frequent, count, first.
  clear result count first.
  rewrite most_common_take.
  pose proof (ranking_sorted tokens) as Hsorted.
  rewrite <- (take_drop (Z.to_nat k) (ranking tokens)) in Hsorted.
  split; [|split; [|split; [|split; [|split; [|split]]]]].
  - intros t c Hin. apply ranking_entry.
    eapply elem_of_sublist; [exact Hin|apply sublist_take].
  - rewrite fmap_take. eapply sublist_NoDup; [apply ranking_NoDup|apply sublist_take].
  - intros i j t1 c1 t2 c2 Hi Hj Hij.
    apply StronglySorted_app_1_l in Hsorted.
    apply (StronglySorted_lookup _ _ _ _ _ _ Hsorted Hi Hj Hij).
  - intros t c t' Hin Ht' Hout.
    assert (Hin' : (t', occurrences t' tokens) ∈ ranking tokens)
      by (by apply ranking_entry).
    rewrite <- (take_drop (Z.to_nat k) (ranking tokens)) in Hin'.
    apply elem_of_app in Hin' as [Hin'|Hin'].
    { destruct Hout. apply list_elem_of_fmap. by eexists (_, _). }
    apply (StronglySorted_app_1_elem_of _ _ _ _ _ Hsorted Hin Hin').
  - intros Hk. rewrite length_take. f_equal.
    rewrite <- (ranking_keys tokens). by rewrite length_fmap.
  - intros Hk. by replace (Z.to_nat k) with O by lia.
  - intros ->. apply take_nil.
Qed.

(** C6: the stopword set is the union of the normalized base lexicon and
    the normalized extra terms, the extra terms being the comma-separated
    pieces of the extra string, trimmed of surrounding whitespace, the empty
    ones dropped; being a set, it is determined by its members. *)
Theorem build_stopwords_spec (base : gset (list Z)) (p : bool)
    (extra : list Z) :
  ∃ pieces,
    is_split COMMA extra pieces
    ∧ ∀ s, s ∈ build_stopwords base p extra ↔
        (∃ w, w ∈ base ∧ s = normalize_arabic w p)
        ∨ (∃ piece core, piece ∈ pieces ∧ is_trim piece core ∧ core ≠ []
                         ∧ s = normalize_arabic core p).
Proof.
  exists (split COMMA extra). split; [apply split_is_split|].
  intros s. rewrite elem_of_build_stopwords. split.
  - intros [?|(piece & Hin & Hne & ->)]; [by left|right].
    exists piece, (strip piece). split; [done|].
    split; [apply strip_is_trim|done].
  - intros [?|(piece & core & Hin & Htrim & Hne & ->)]; [by left|right].
    apply is_trim_strip in Htrim as ->. by exists piece.
Qed.

(** C7: normalization is idempotent, for every string and either value of
    the ta-marbuta flag. *)
Theorem normalize_arabic_idempotent (s : list Z) (p : bool) :
  normalize_arabic (normalize_arabic s p) p = normalize_arabic s p.
Proof. apply normalize_arabic_idem. Qed.

(** C8: the numbers returned are exactly the matches of the number pattern,
    in order, whose start offset lies in the span of no date match (ISO or
    slash form): a match starting at [s] is dropped exactly when
    [dateStart <= s < dateEnd] for some date span; on the text
    ["2025-09-09 and 120"] the dates are ["2025-09-09"] and the numbers are
    ["120"] alone. *)
Theorem extract_numbers_excluding_dates_spec
    (isdecimal_beyond_ascii isalnum_beyond_ascii : Z → bool) (text : list Z) :
  let DATE_ISO := DATE_ISO isdecimal_beyond_ascii isalnum_beyond_ascii in
  let DATE_SL := DATE_SL isdecimal_beyond_ascii isalnum_beyond_ascii in
  let NUM_RE := NUM_RE isdecimal_beyond_ascii isalnum_beyond_ascii in
  let extract_numbers_excluding_dates :=
    extract_numbers_excluding_dates isdecimal_beyond_ascii isalnum_beyond_ascii in
  let extract_dates :=
    extract_dates isdecimal_beyond_ascii isalnum_beyond_ascii in
  let date_spans :=
    map (λ m, (m_start m, m_end m)) (finditer DATE_ISO text ++ finditer DATE_SL text) in
  extract_numbers_excluding_dates text
  = map m_group (filter (outside_dates date_spans) (finditer NUM_RE text))
  ∧ (∀ number, number ∈ extract_numbers_excluding_dates text ↔
       ∃ m, m ∈ finditer NUM_RE text ∧ number = m_group m
            ∧ ¬ ∃ ds de, (ds, de) ∈ date_spans ∧ ds ≤ m_start m < de)
  ∧ extract_dates (ascii_str "2025-09-09 and 120") = [ascii_str "2025-09-09"]
  ∧ extract_numbers_excluding_dates (ascii_str "2025-09-09 and 120")
    = [ascii_str "120"].
Proof.
  intros DATE_ISO' DATE_SL' NUM_RE' extract_numbers' extract_dates' date_spans.
  assert (Heq : extract_numbers' text
    = map m_group (filter (outside_dates date_spans) (finditer NUM_RE' text))).
  { unfold extract_numbers', extract_numbers_excluding_dates, _find_spans.
    rewrite number_loop. unfold date_spans. by rewrite map_app. }
  split; [exact Heq|]. split; [|split; vm_compute; reflexivity].
  intros number. rewrite Heq. split.
  - intros (m & -> & Hm)%list_elem_of_fmap. exists m.
    apply list_elem_of_filter in Hm as [Hout Hm]. split; [done|].
    split; [done|]. intros (ds & de & Hin & Hs). apply Hout.
    apply Exists_exists. by exists (ds, de).
  - intros (m & Hm & -> & Hout). apply list_elem_of_fmap. exists m.
    split; [done|]. apply list_elem_of_filter. split; [|done].
    intros ([ds de] & Hin & Hs)%Exists_exists. apply Hout. by exists ds, de.
Qed.

(** C9: every token of the tokenizer, on raw or on normalized text, is
    non-empty and made of characters of U+0621..U+063A or U+0641..U+064A
    only; so no tatweel, diacritic, digit or punctuation character occurs
    in a token. *)
Theorem tokenize_ar_only_letters (text : list Z) (p : bool) (t : list Z) :
  t ∈ tokenize_ar text ∨ t ∈ tokenize_ar (normalize_arabic text p) →
  t ≠ []
  ∧ ∀ c, c ∈ t →
      (0x0621 ≤ c ≤ 0x063A ∨ 0x0641 ≤ c ≤ 0x064A)
      ∧ AR_TATWEEL c = false ∧ AR_DIACRITICS c = false
      ∧ is_ascii c = false ∧ arabic_digit c = false
      ∧ arabic_punctuation c = false.
Proof.
  intros Ht.
  assert (Hletters : t ≠ [] ∧ Forall (λ c, AR_LETTER c = true) t)
    by (destruct Ht as [Ht|Ht]; by apply tokenize_ar_letters in Ht).
  destruct Hletters as [Hne Hall]. split; [done|].
  intros c Hc. rewrite Forall_forall in Hall. apply Hall in Hc.
  unfold AR_LETTER, in_range in Hc.
  assert (Hr : 0x0621 ≤ c ≤ 0x063A ∨ 0x0641 ≤ c ≤ 0x064A).
  { apply orb_true_iff in Hc as [Hc|Hc];
      apply andb_true_iff in Hc as [?%Z.leb_le ?%Z.leb_le]; lia. }
  split; [done|].
  unfold AR_TATWEEL, AR_DIACRITICS, is_ascii, arabic_digit,
    arabic_punctuation, one_of, in_range. simpl.
  repeat split; destruct Hr; settle_tests; reflexivity.
Qed.

(** C9 on a text with a tatweel and a digit. *)
Lemma tokenize_ar_only_letters_witness :
  [0x0628; 0x0627] ∈ tokenize_ar [0x0628; 0x0627; 0x0640; 0x0628; 0x31]
  ∧ [0x0628; 0x0627] ≠ [].
Proof.
  assert (Hin : [0x0628; 0x0627]
                ∈ tokenize_ar [0x0628; 0x0627; 0x0640; 0x0628; 0x31])
    by (vm_compute; left).
  split; [exact Hin|].
  exact (proj1 (tokenize_ar_only_letters _ true _ (or_introl Hin))).
Defined.

(** C10: every member of the stopword set is a fixed point of the
    normalization under the policy the set was built with. *)
Theorem build_stopwords_fixed_points (base : gset (list Z)) (p : bool)
    (extra s : list Z) :
  s ∈ build_stopwords base p extra → normalize_arabic s p = s.
Proof. apply build_stopwords_normalized. Qed.

(** C10 on a one-word lexicon and one extra term. *)
Lemma build_stopwords_fixed_points_witness :
  [HEH] ∈ build_stopwords {[ [ALEF_MADDA] ]} true [32; TEH_MARBUTA; COMMA]
  ∧ normalize_arabic [HEH] true = [HEH].
Proof.
  assert (Hin : [HEH] ∈ build_stopwords {[ [ALEF_MADDA] ]} true
                                        [32; TEH_MARBUTA; COMMA]).
  { apply elem_of_build_stopwords. right. exists [32; TEH_MARBUTA].
    split; [vm_compute; left|]. split; [by vm_compute|reflexivity]. }
  split; [exact Hin|].
  exact (build_stopwords_fixed_points _ _ _ _ Hin).
Defined.

(** * Further properties *)

Section NormalizationMore.

(** A check on the image of each character holds everywhere once it holds
    on the block and outside it. *)
Lemma char_check (Q : bool → Z → bool) :
  (∀ p, forallb (Q p) (seqZ 0x0617 60) = true) →
  (∀ p c, c < 0x0617 ∨ 0x0652 < c → Q p c = true) →
  ∀ p c, Q p c = true.
Proof.
  intros Hin Hout p c.
  destruct (decide (0x0617 ≤ c ≤ 0x0652)) as [Hc|Hc]; [|apply Hout; lia].
  specialize (Hin p). rewrite forallb_forall in Hin. apply Hin.
  apply list_elem_of_In, elem_of_seqZ. lia.
Qed.

Ltac unfold_classes :=
  unfold stable_char, deleted_char, rewritten_char, beyond_rewrites,
    AR_DIACRITICS, AR_TATWEEL, in_range, one_of, ALEF_HAMZA_BELOW,
    ALEF_HAMZA_ABOVE, ALEF_MADDA, ALEF, ALEF_MAKSURA, WAW_HAMZA, YEH_HAMZA,
    TEH_MARBUTA.

Lemma normalize_char_beyond p c :
  bool_decide (filter (λ c, beyond_rewrites c = true) (normalize_char p c)
               = if beyond_rewrites c then [c] else []) = true.
Proof.
  revert p c. apply (char_check (λ p c, bool_decide _)).
  - intros []; vm_compute; reflexivity.
  - intros p c Hc. rewrite normalize_char_outside by done.
    apply bool_decide_eq_true. rewrite filter_cons, filter_nil.
    assert (beyond_rewrites c = true) as ->; [|done].
    unfold_classes. destruct Hc; settle_tests; reflexivity.
Qed.

Lemma normalize_char_stable p c :
  forallb (stable_char p) (normalize_char p c) = true.
Proof.
  revert p c. apply (char_check (λ p c, forallb (stable_char p) _)).
  - intros []; vm_compute; reflexivity.
  - intros p c Hc. rewrite normalize_char_outside by done.
    unfold_classes. destruct Hc, p; simpl; settle_tests; reflexivity.
Qed.

Lemma normalize_char_fixed p c :
  stable_char p c = true → normalize_char p c = [c].
Proof.
  intros Hs.
  assert (H : implb (stable_char p c) (bool_decide (normalize_char p c = [c])) = true).
  { clear Hs. revert p c.
    apply (char_check (λ p c, implb (stable_char p c) (bool_decide _))).
    - intros []; vm_compute; reflexivity.
    - intros p c Hc. rewrite normalize_char_outside by done.
      rewrite bool_decide_eq_true_2 by done. by destruct (stable_char p c). }
  rewrite Hs in H. by apply bool_decide_eq_true in H.
Qed.

Lemma normalize_char_length p c :
  length (normalize_char p c) = if deleted_char c then O else 1%nat.
Proof.
  assert (H : bool_decide (length (normalize_char p c)
                           = if deleted_char c then O else 1%nat) = true);
    [|by apply bool_decide_eq_true in H].
  revert p c. apply (char_check (λ p c, bool_decide _)).
  - intros []; vm_compute; reflexivity.
  - intros p c Hc. rewrite normalize_char_outside by done.
    apply bool_decide_eq_true.
    assert (deleted_char c = false) as ->; [|done].
    unfold_classes. destruct Hc; settle_tests; reflexivity.
Qed.

Lemma normalize_char_fold_after_keep c :
  normalize_arabic (normalize_char false c) true = normalize_char true c.
Proof.
  assert (H : bool_decide (normalize_arabic (normalize_char false c) true
                           = normalize_char true c) = true);
    [|by apply bool_decide_eq_true in H].
  revert c. apply (char_check (λ _ c, bool_decide _)); [| |exact true].
  - intros _; vm_compute; reflexivity.
  - intros _ c Hc. rewrite !normalize_char_outside by done.
    apply bool_decide_eq_true. by apply (normalize_char_outside true).
Qed.

Lemma normalize_char_keep_after_fold c :
  normalize_arabic (normalize_char true c) false = normalize_char true c.
Proof.
  assert (H : bool_decide (normalize_arabic (normalize_char true c) false
                           = normalize_char true c) = true);
    [|by apply bool_decide_eq_true in H].
  revert c. apply (char_check (λ _ c, bool_decide _)); [| |exact true].
  - intros _; vm_compute; reflexivity.
  - intros _ c Hc. rewrite !normalize_char_outside by done.
    apply bool_decide_eq_true. by apply (normalize_char_outside false).
Qed.

Lemma normalize_arabic_stable s p :
  Forall (λ c, stable_char p c = true) (normalize_arabic s p).
Proof.
  induction s as [|c s IH]; [by rewrite normalize_arabic_nil|].
  rewrite normalize_arabic_cons. apply Forall_app. split; [|done].
  apply Forall_forall. intros c' Hc'.
  pose proof (normalize_char_stable p c) as H.
  rewrite forallb_forall in H. by apply H, list_elem_of_In.
Qed.

Lemma normalize_arabic_fixed s p :
  Forall (λ c, stable_char p c = true) s → normalize_arabic s p = s.
Proof.
  induction 1 as [|c s Hc _ IH]; [by rewrite normalize_arabic_nil|].
  by rewrite normalize_arabic_cons, normalize_char_fixed, IH.
Qed.

End NormalizationMore.

(** X1: normalization leaves every character outside U+0617..U+0652 (ASCII,
    digits, Latin letters, punctuation, the rest of Unicode) in place: the
    subsequence of these characters is the same before and after. *)
Theorem normalize_arabic_keeps_other_characters (s : list Z) (p : bool) :
  filter (λ c, beyond_rewrites c = true) (normalize_arabic s p)
  = filter (λ c, beyond_rewrites c = true) s.
Proof.
  induction s as [|c s IH]; [by rewrite normalize_arabic_nil|].
  rewrite normalize_arabic_cons, filter_app, IH, filter_cons.
  pose proof (normalize_char_beyond p c) as H.
  apply bool_decide_eq_true in H. rewrite H.
  by destruct (beyond_rewrites c).
Qed.

(** X2: the output of the normalization holds no character that the
    normalization deletes (diacritics, tatweel) or rewrites (the hamza forms
    of alef, waw and ya, alef maksura, and ta marbuta when it is folded), and
    the strings the normalization leaves unchanged are exactly the strings
    without such a character. *)
Theorem normalize_arabic_fixed_points (s : list Z) (p : bool) :
  Forall (λ c, stable_char p c = true) (normalize_arabic s p)
  ∧ (normalize_arabic s p = s ↔ Forall (λ c, stable_char p c = true) s).
Proof.
  split; [apply normalize_arabic_stable|]. split.
  - intros Heq. rewrite <- Heq. apply normalize_arabic_stable.
  - apply normalize_arabic_fixed.
Qed.

(** X3: the normalization shortens a string by exactly the number of
    diacritics and tatweels in it; every other character gives one
    character. *)
Theorem normalize_arabic_length (s : list Z) (p : bool) :
  length (normalize_arabic s p)
  = length (filter (λ c, deleted_char c = false) s).
Proof.
  induction s as [|c s IH]; [by rewrite normalize_arabic_nil|].
  rewrite normalize_arabic_cons, length_app, IH, normalize_char_length.
  rewrite filter_cons. by destruct (deleted_char c).
Qed.

(** X4: the two policies compose: folding ta marbuta after a normalization
    that kept it gives the folding normalization, and the keeping
    normalization changes nothing in a text normalized with folding. *)
Theorem normalize_arabic_policies_compose (s : list Z) :
  normalize_arabic (normalize_arabic s false) true = normalize_arabic s true
  ∧ normalize_arabic (normalize_arabic s true) false = normalize_arabic s true.
Proof.
  split.
  - induction s as [|c s IH]; [done|].
    rewrite (normalize_arabic_cons c s false), normalize_arabic_app, IH.
    by rewrite normalize_char_fold_after_keep, <- normalize_arabic_cons.
  - induction s as [|c s IH]; [done|].
    rewrite (normalize_arabic_cons c s true), normalize_arabic_app, IH.
    by rewrite normalize_char_keep_after_fold.
Qed.

Section RegexMore.

Lemma last_or_cons prev c s : last_or prev (c :: s) = last_or (Some c) s.
Proof.
  unfold last_or. destruct s as [|d s]; [done|].
  change (last (c :: d :: s)) with (last (d :: s)).
  by destruct (last (d :: s)) eqn:E; [|by apply last_None in E].
Qed.

Lemma last_or_app prev s1 s2 :
  last_or prev (s1 ++ s2) = last_or (last_or prev s1) s2.
Proof.
  revert prev. induction s1 as [|c s1 IH]; intros prev; [done|].
  simpl. by rewrite !last_or_cons, IH.
Qed.

Lemma last_or_last (before s : list Z) :
  last_or (last before) s = last (before ++ s).
Proof.
  induction s as [|c s IH] using rev_ind.
  - by rewrite app_nil_r.
  - rewrite app_assoc, last_snoc. unfold last_or. by rewrite last_snoc.
Qed.

Lemma repeat_matches_sound cls lo hi prev rest st :
  st ∈ repeat_matches cls lo hi prev rest →
  ∃ pre, rest = pre ++ st.2 ∧ st.1 = last_or prev pre
         ∧ denotes (Repeat cls lo hi) pre.
Proof.
  revert lo hi prev.
  induction rest as [|c rest IH]; intros lo hi prev; simpl.
  - destruct lo; [|by intros ?%elem_of_nil].
    intros ->%list_elem_of_singleton. exists []. simpl.
    repeat split; [done|lia|by destruct hi; [lia|]].
  - rewrite elem_of_app. intros [H|H].
    + destruct (cls c) eqn:E; [|by apply elem_of_nil in H].
      destruct hi as [[|h]|]; [by apply elem_of_nil in H| |].
      * apply IH in H as (pre & -> & Hprev & Hall & Hlo & Hhi).
        exists (c :: pre). rewrite last_or_cons. simpl.
        repeat split; [done|by constructor|lia|lia].
      * apply IH in H as (pre & -> & Hprev & Hall & Hlo & _).
        exists (c :: pre). rewrite last_or_cons. simpl.
        repeat split; [done|by constructor|lia].
    + destruct lo; [|by apply elem_of_nil in H].
      apply list_elem_of_singleton in H as ->. exists []. simpl.
      repeat split; [done|lia|by destruct hi; [lia|]].
Qed.

(** Soundness of the matcher: a way a pattern matches reads a prefix of
    the text that the pattern denotes, and remembers its last character. *)
Lemma matches_sound r st st' :
  st' ∈ matches r st →
  ∃ pre, st.2 = pre ++ st'.2 ∧ st'.1 = last_or st.1 pre ∧ denotes r pre.
Proof.
  revert st st'. induction r as [w|c|cls lo hi|r1 IH1 r2 IH2|r IH];
    intros [prev rest] st'; simpl.
  - destruct (at_boundary w prev rest); [|by intros ?%elem_of_nil].
    intros ->%list_elem_of_singleton. by exists [].
  - destruct rest as [|c' rest]; [by intros ?%elem_of_nil|].
    destruct (Z.eqb_spec c' c) as [->|]; [|by intros ?%elem_of_nil].
    intros ->%list_elem_of_singleton. by exists [c].
  - apply repeat_matches_sound.
  - intros Hin. apply list_elem_of_In, in_flat_map in Hin as (mid & H1 & H2).
    apply list_elem_of_In, IH1 in H1 as (pre1 & Hrest & Hprev1 & Hd1).
    apply list_elem_of_In, IH2 in H2 as (pre2 & Hmid & Hprev2 & Hd2).
    simpl in *. exists (pre1 ++ pre2).
    rewrite Hrest, Hmid, Hprev2, Hprev1, last_or_app, <- app_assoc.
    repeat split. by exists pre1, pre2.
  - rewrite elem_of_app. intros [H| ->%list_elem_of_singleton].
    + apply IH in H as (pre & ? & ? & ?). exists pre. auto.
    + exists []. auto.
Qed.

(** Where the scan finds its matches. *)
Lemma finditer_from_located r rest before skip m :
  m ∈ finditer_from r skip (Z.of_nat (length before)) (last before) rest →
  ∃ before' from st,
    before ++ rest = before' ++ from
    ∧ m_start m = Z.of_nat (length before')
    ∧ head (matches r (last before', from)) = Some st
    ∧ m_group m = take (length from - length st.2) from
    ∧ m_end m = m_start m + Z.of_nat (length from - length st.2).
Proof.
  revert before skip.
  induction rest as [|c rest IH]; intros before skip; simpl.
  - destruct skip; [|by intros ?%elem_of_nil].
    destruct (head (matches r (last before, []))) as [st|] eqn:E;
      [|by intros ?%elem_of_nil].
    destruct st as [p after]. intros ->%list_elem_of_singleton.
    by exists before, [], (p, after).
  - assert (Htail : ∀ k, m ∈ finditer_from r k (Z.of_nat (length before) + 1)
                                 (Some c) rest →
      ∃ before' from st, before ++ c :: rest = before' ++ from
        ∧ m_start m = Z.of_nat (length before')
        ∧ head (matches r (last before', from)) = Some st
        ∧ m_group m = take (length from - length st.2) from
        ∧ m_end m = m_start m + Z.of_nat (length from - length st.2)).
    { intros k Hin.
      specialize (IH (before ++ [c]) k).
      rewrite length_app, last_snoc, Nat2Z.inj_add in IH. simpl in IH.
      apply IH in Hin as (before' & from & st & Heq & ?).
      exists before', from, st. by rewrite <- Heq, <- app_assoc. }
    destruct skip; [|by apply Htail].
    destruct (head (matches r (last before, c :: rest))) as [[p after]|] eqn:E;
      [|by apply Htail].
    intros [->|H]%elem_of_cons; [|by eapply Htail].
    by exists before, (c :: rest), (p, after).
Qed.

(** Every match of [finditer] is a piece of the text that the pattern
    denotes, found at its offsets. *)
Lemma finditer_match r text m :
  m ∈ finditer r text →
  ∃ before after,
    text = before ++ m_group m ++ after
    ∧ m_start m = Z.of_nat (length before)
    ∧ m_end m = m_start m + Z.of_nat (length (m_group m))
    ∧ denotes r (m_group m)
    ∧ (last (before ++ m_group m), after)
      ∈ matches r (last before, m_group m ++ after).
Proof.
  intros Hin. apply (finditer_from_located r text [] O) in Hin
    as (before & from & st & Htext & Hstart & Hhd & Hgroup & Hend).
  apply head_Some_elem_of in Hhd. pose proof Hhd as Hin.
  apply matches_sound in Hin as (pre & Hfrom & Hprev & Hden).
  simpl in *. destruct st as [p after]. simpl in *. subst from.
  rewrite length_app, Nat.add_sub in Hgroup, Hend.
  rewrite take_app_length in Hgroup. rewrite Hgroup.
  exists before, after. split; [done|]. split; [done|]. split; [done|].
  split; [done|]. by rewrite <- last_or_last, <- Hprev.
Qed.

Lemma finditer_from_start r rest skip pos prev m :
  m ∈ finditer_from r skip pos prev rest →
  pos + Z.of_nat skip ≤ m_start m.
Proof.
  revert skip pos prev.
  induction rest as [|c rest IH]; intros skip pos prev; simpl.
  - destruct skip; [|by intros ?%elem_of_nil].
    destruct (head _) as [[p after]|]; [|by intros ?%elem_of_nil].
    intros ->%list_elem_of_singleton. simpl. lia.
  - destruct skip.
    + destruct (head _) as [[p after]|].
      * intros [->|H]%elem_of_cons; [simpl; lia|]. apply IH in H. lia.
      * intros H. apply IH in H. lia.
    + intros H. apply IH in H. lia.
Qed.

(** The matches come in order and do not overlap. *)
Lemma finditer_from_ordered r rest skip pos prev :
  StronglySorted (λ m1 m2, m_end m1 ≤ m_start m2)
                 (finditer_from r skip pos prev rest).
Proof.
  revert skip pos prev.
  induction rest as [|c rest IH]; intros skip pos prev; simpl.
  - destruct skip; [|constructor].
    destruct (head _) as [[p after]|]; repeat constructor.
  - destruct skip; [|apply IH].
    destruct (head _) as [[p after]|]; [|apply IH].
    constructor; [apply IH|]. apply Forall_forall.
    intros m Hm%finditer_from_start. simpl. lia.
Qed.

(** Stepping over the rest of a match. *)
Lemma finditer_from_skip r pre rest pos prev :
  finditer_from r (length pre) pos prev (pre ++ rest)
  = finditer_from r O (pos + Z.of_nat (length pre)) (last_or prev pre) rest.
Proof.
  revert pos prev. induction pre as [|c pre IH]; intros pos prev.
  - simpl. by rewrite Z.add_0_r.
  - simpl length. rewrite last_or_cons.
    replace (pos + Z.of_nat (S (length pre)))
      with (pos + 1 + Z.of_nat (length pre)) by lia.
    rewrite <- IH. done.
Qed.

End RegexMore.

Section TokenizerMore.
Variable cls : Z → bool.

Lemma repeat_matches_zero_nonempty prev rest :
  repeat_matches cls 0 None prev rest ≠ [].
Proof.
  destruct rest as [|c rest]; simpl; [done|]. by intros [_ ?]%app_eq_nil.
Qed.

(** The first way an unbounded repetition matches stops at a character
    outside the class, or at the end. *)
Lemma repeat_matches_zero_maximal prev rest st :
  head (repeat_matches cls 0 None prev rest) = Some st →
  ∀ d, head st.2 = Some d → cls d = false.
Proof.
  revert prev. induction rest as [|c rest IH]; intros prev; simpl.
  - by intros [= <-] d.
  - destruct (cls c) eqn:E.
    + pose proof (repeat_matches_zero_nonempty (Some c) rest) as Hne.
      destruct (repeat_matches cls 0 None (Some c) rest) as [|st' l] eqn:El;
        [done|].
      simpl. intros [= <-]. apply (IH (Some c)). by rewrite El.
    + simpl. by intros [= <-] d [= <-].
Qed.

Lemma runs_from_run cur run after :
  Forall (λ c, cls c = true) run →
  (∀ d, head after = Some d → cls d = false) →
  cur ++ run ≠ [] →
  runs_from cls cur (run ++ after) = (cur ++ run) :: runs_from cls [] after.
Proof.
  intros Hrun Hafter. revert cur.
  induction Hrun as [|c run Hc _ IH]; intros cur Hne.
  - rewrite app_nil_r in *. destruct cur as [|c0 cur]; [done|].
    destruct after as [|d after]; [done|].
    simpl. by rewrite (Hafter d).
  - simpl. rewrite Hc, IH; [by rewrite <- app_assoc|].
    by destruct cur.
Qed.

(** The scan for [[cls]+] finds the maximal runs of the class. *)
Lemma finditer_runs (n : nat) :
  ∀ rest pos prev, (length rest ≤ n)%nat →
  map m_group (finditer_from (Repeat cls 1 None) O pos prev rest)
  = runs_from cls [] rest.
Proof.
  induction n as [|n IH]; intros rest pos prev Hlen.
  { destruct rest; [done|simpl in Hlen; lia]. }
  destruct rest as [|c rest]; [done|].
  cbn [finditer_from matches fst snd repeat_matches].
  destruct (cls c) eqn:Ec; cbn [pred].
  - rewrite app_nil_r.
    pose proof (repeat_matches_zero_nonempty (Some c) rest) as Hne.
    destruct (repeat_matches cls 0 None (Some c) rest) as [|[p after] l] eqn:El;
      [done|]. cbn [head].
    assert (Hin : (p, after) ∈ repeat_matches cls 0 None (Some c) rest)
      by (rewrite El; left).
    apply repeat_matches_sound in Hin as (pre & Hrest & _ & Hall & _).
    cbn [fst snd] in Hrest. subst rest.
    assert (Hmax : ∀ d, head after = Some d → cls d = false).
    { apply (repeat_matches_zero_maximal (Some c) (pre ++ after) (p, after)).
      by rewrite El. }
    cbn [length]. rewrite length_app.
    replace (S (length pre + length after) - length after)%nat
      with (S (length pre)) by lia.
    cbn [map m_group pred take]. rewrite take_app_length.
    rewrite finditer_from_skip, IH
      by (simpl in Hlen; rewrite length_app in Hlen; lia).
    change (c :: pre ++ after) with ((c :: pre) ++ after).
    rewrite runs_from_run; [done|by constructor|done|done].
  - cbn [app head]. rewrite IH by (simpl in Hlen; lia).
    simpl. by rewrite Ec.
Qed.

Lemma runs_from_concat cur text :
  concat (runs_from cls cur text) = cur ++ filter (λ c, cls c = true) text.
Proof.
  revert cur. induction text as [|c text IH]; intros cur; simpl.
  - destruct cur; simpl; by rewrite ?app_nil_r.
  - rewrite filter_cons. destruct (cls c) eqn:E.
    + rewrite decide_True by done. by rewrite IH, <- app_assoc.
    + rewrite decide_False by congruence.
      destruct cur; simpl; by rewrite IH.
Qed.

Lemma runs_from_separator cur s c t :
  cls c = false →
  runs_from cls cur (s ++ c :: t) = runs_from cls cur s ++ runs_from cls [] t.
Proof.
  intros Hc. revert cur. induction s as [|d s IH]; intros cur; simpl.
  - rewrite Hc. by destruct cur.
  - destruct (cls d); [apply IH|]. destruct cur; simpl; by rewrite IH.
Qed.

End TokenizerMore.

Lemma tokenize_ar_runs text : tokenize_ar text = runs_from AR_LETTER [] text.
Proof. by apply (finditer_runs AR_LETTER (length text)). Qed.

(** X5: the tokens, put end to end, are the Arabic letters of the text in
    their order: tokenization drops the characters that are not letters and
    nothing else, and it duplicates nothing. *)
Theorem tokenize_ar_concat (text : list Z) :
  concat (tokenize_ar text) = filter (λ c, AR_LETTER c = true) text.
Proof. by rewrite tokenize_ar_runs, runs_from_concat. Qed.

(** X6: every character that is not an Arabic letter separates tokens: the
    tokens of a text around such a character are the tokens of the part
    before it followed by the tokens of the part after it; a non-empty
    string of letters is one token, itself, and the empty text has no
    token. *)
Theorem tokenize_ar_separators :
  (∀ s c t, AR_LETTER c = false →
            tokenize_ar (s ++ c :: t) = tokenize_ar s ++ tokenize_ar t)
  ∧ (∀ s, s ≠ [] → Forall (λ c, AR_LETTER c = true) s → tokenize_ar s = [s])
  ∧ tokenize_ar [] = [].
Proof.
  split; [|split; [|done]].
  - intros s c t Hc. rewrite !tokenize_ar_runs. by apply runs_from_separator.
  - intros s Hne Hall. rewrite tokenize_ar_runs.
    rewrite <- (app_nil_r s) at 1.
    rewrite runs_from_run; [done|done|by intros d [=]|done].
Qed.

Section TokensOfNormalizedText.

Lemma tokenize_ar_chars text t c :
  t ∈ tokenize_ar text → c ∈ t → c ∈ text.
Proof.
  intros Ht Hc.
  assert (Hin : c ∈ concat (tokenize_ar text))
    by (apply list_elem_of_In, in_concat; exists t;
        split; by apply list_elem_of_In).
  rewrite tokenize_ar_runs, runs_from_concat in Hin.
  by apply list_elem_of_filter in Hin as [_ ?].
Qed.

Lemma tokens_normalized raw p t :
  t ∈ tokenize_ar (normalize_arabic raw p) →
  Forall (λ c, stable_char p c = true) t.
Proof.
  intros Ht. apply Forall_forall. intros c Hc.
  pose proof (normalize_arabic_stable raw p) as Hall.
  rewrite Forall_forall in Hall. by eapply Hall, tokenize_ar_chars.
Qed.

End TokensOfNormalizedText.

(** X7: the tokens of a normalized text are themselves normalized: a token
    holds none of the characters that the normalization under the same
    policy deletes or rewrites, and normalizing the token again gives the
    token; so tokens and stopwords are compared in the same normal form. *)
Theorem tokens_of_normalized_text (raw : list Z) (p : bool) (t : list Z) :
  t ∈ tokenize_ar (normalize_arabic raw p) →
  Forall (λ c, stable_char p c = true) t ∧ normalize_arabic t p = t.
Proof.
  intros Ht%tokens_normalized. split; [done|by apply normalize_arabic_fixed].
Qed.

(** X7 on a word written with a hamza, a diacritic and a ta marbuta. *)
Lemma tokens_of_normalized_text_witness :
  [ALEF; HEH] ∈ tokenize_ar (normalize_arabic [ALEF_HAMZA_ABOVE; 0x064E; TEH_MARBUTA; 0x20] true)
  ∧ normalize_arabic [ALEF; HEH] true = [ALEF; HEH].
Proof.
  assert (Hin : [ALEF; HEH] ∈ tokenize_ar
            (normalize_arabic [ALEF_HAMZA_ABOVE; 0x064E; TEH_MARBUTA; 0x20] true))
    by (vm_compute; left).
  split; [exact Hin|].
  exact (proj2 (tokens_of_normalized_text _ _ _ Hin)).
Defined.

Section StopwordsMore.

Lemma split_app_sep sep s t :
  split sep (s ++ sep :: t) = split sep s ++ split sep t.
Proof.
  induction s as [|c s IH]; simpl.
  - by rewrite Z.eqb_refl.
  - destruct (c =? sep); [by rewrite IH|]. rewrite IH.
    pose proof (split_nonempty sep s) as Hne.
    by destruct (split sep s).
Qed.

Lemma split_chars sep s piece c :
  piece ∈ split sep s → c ∈ piece → c ∈ s.
Proof.
  revert piece. induction s as [|d s IH]; intros piece; simpl.
  - intros ->%list_elem_of_singleton. done.
  - destruct (d =? sep).
    + intros [->|Hin]%elem_of_cons Hc; [by apply elem_of_nil in Hc|].
      right. by eapply IH.
    + pose proof (split_nonempty sep s) as Hne.
      destruct (split sep s) as [|first pieces]; [done|].
      intros [->|Hin]%elem_of_cons Hc.
      * apply elem_of_cons in Hc as [->|Hc]; [left|right].
        apply (IH first); [left|done].
      * right. apply (IH piece); [by right|done].
Qed.

Lemma strip_spaces piece :
  Forall (λ c, is_space c = true) piece → strip piece = [].
Proof. intros H. unfold strip. by rewrite lstrip_all_spaces. Qed.

End StopwordsMore.

(** X8: two extra strings joined by a comma give the union of the stopword
    sets of the two: the extra terms are taken one by one, whatever their
    order and however often they are repeated. *)
Theorem build_stopwords_join (base : gset (list Z)) (p : bool)
    (extra1 extra2 : list Z) :
  build_stopwords base p (extra1 ++ COMMA :: extra2)
  = build_stopwords base p extra1 ∪ build_stopwords base p extra2.
Proof.
  apply set_eq. intros s.
  rewrite elem_of_union, !elem_of_build_stopwords, split_app_sep.
  setoid_rewrite elem_of_app. split.
  - intros [?|(piece & [?|?] & ? & ?)]; [by left; left|left|right];
      right; by exists piece.
  - intros [[?|(piece & ? & ? & ?)]|[?|(piece & ? & ? & ?)]];
      [by left|right|by left|right]; exists piece; auto.
Qed.

(** X9: an extra string made of commas and whitespace only (the empty one
    included) adds nothing: the stopword set is the normalized lexicon. *)
Theorem build_stopwords_blank_extra (base : gset (list Z)) (p : bool)
    (extra : list Z) :
  Forall (λ c, c = COMMA ∨ is_space c = true) extra →
  ∀ s, s ∈ build_stopwords base p extra ↔
       ∃ w, w ∈ base ∧ s = normalize_arabic w p.
Proof.
  intros Hblank s. rewrite elem_of_build_stopwords. split; [|by left].
  intros [?|(piece & Hin & Hne & _)]; [done|]. destruct Hne.
  apply strip_spaces, Forall_forall. intros c Hc.
  pose proof (split_is_split COMMA extra) as (_ & _ & Hsep).
  rewrite Forall_forall in Hblank. rewrite Forall_forall in Hsep.
  destruct (Hblank c (split_chars _ _ _ _ Hin Hc)) as [->|?]; [|done].
  by destruct (Hsep piece Hin).
Qed.

(** X9 on a string of stray commas and blanks. *)
Lemma build_stopwords_blank_extra_witness :
  Forall (λ c, c = COMMA ∨ is_space c = true) (ascii_str " , ,,")
  ∧ ([ALEF] ∈ build_stopwords {[ [ALEF_MADDA] ]} true (ascii_str " , ,,") ↔
     ∃ w, w ∈ ({[ [ALEF_MADDA] ]} : gset (list Z))
          ∧ [ALEF] = normalize_arabic w true).
Proof.
  assert (Hblank : Forall (λ c, c = COMMA ∨ is_space c = true)
                          (ascii_str " , ,,")).
  { repeat constructor; (by left) || (by right). }
  split; [exact Hblank|].
  exact (build_stopwords_blank_extra _ true _ Hblank [ALEF]).
Defined.

(** X10: filtering twice is filtering once with the two stopword sets put
    together and the larger of the two minimum lengths; in particular the
    filter is idempotent. *)
Theorem remove_stopwords_twice (tokens : list (list Z))
    (stop1 stop2 : gset (list Z)) (min_len1 min_len2 : Z) :
  remove_stopwords (remove_stopwords tokens stop1 min_len1) stop2 min_len2
  = remove_stopwords tokens (stop1 ∪ stop2) (Z.max min_len1 min_len2)
  ∧ remove_stopwords (remove_stopwords tokens stop1 min_len1) stop1 min_len1
    = remove_stopwords tokens stop1 min_len1.
Proof.
  assert (Htwice : ∀ s1 s2 m1 m2,
    remove_stopwords (remove_stopwords tokens s1 m1) s2 m2
    = filter (λ t, kept s2 m2 t ∧ kept s1 m1 t) tokens).
  { intros. by rewrite !remove_stopwords_filter, list_filter_filter. }
  rewrite !Htwice, !remove_stopwords_filter.
  split; apply list_filter_iff; intros t; unfold kept;
    rewrite ?not_elem_of_union; split; intros; destruct_and?;
    repeat split; try done; lia.
Qed.

Section ExtractorsMore.
Variables isdecimal_beyond_ascii isalnum_beyond_ascii : Z → bool.

Local Abbreviation is_digit := (is_digit isdecimal_beyond_ascii).
Local Abbreviation is_word := (is_word isalnum_beyond_ascii).
Local Abbreviation DATE_ISO := (DATE_ISO isdecimal_beyond_ascii isalnum_beyond_ascii).
Local Abbreviation DATE_SL := (DATE_SL isdecimal_beyond_ascii isalnum_beyond_ascii).
Local Abbreviation NUM_RE := (NUM_RE isdecimal_beyond_ascii isalnum_beyond_ascii).

Lemma findall_match r text g :
  g ∈ findall r text →
  ∃ m, m ∈ finditer r text ∧ g = m_group m.
Proof. intros (m & -> & Hm)%list_elem_of_fmap. by exists m. Qed.

Lemma denotes_DATE_ISO d :
  denotes DATE_ISO d →
  ∃ y m dd, d = y ++ [45] ++ m ++ [45] ++ dd
    ∧ digit_string is_digit 4 4 y ∧ digit_string is_digit 2 2 m
    ∧ digit_string is_digit 2 2 dd.
Proof.
  unfold DATE_ISO, digits, wb. simpl.
  intros (? & ? & -> & -> & y & ? & -> & (Hy & ? & ?) & ? & ? & -> & ->
          & m & ? & -> & (Hm & ? & ?) & ? & ? & -> & -> & dd & ? & ->
          & (Hd & ? & ?) & ->).
  exists y, m, dd. rewrite app_nil_r. by repeat split.
Qed.

Lemma denotes_DATE_SL d :
  denotes DATE_SL d →
  ∃ dd m y, d = dd ++ [47] ++ m ++ [47] ++ y
    ∧ digit_string is_digit 1 2 dd ∧ digit_string is_digit 1 2 m
    ∧ digit_string is_digit 4 4 y.
Proof.
  unfold DATE_SL, digits, wb. simpl.
  intros (? & ? & -> & -> & dd & ? & -> & (Hd & ? & ?) & ? & ? & -> & ->
          & m & ? & -> & (Hm & ? & ?) & ? & ? & -> & -> & y & ? & ->
          & (Hy & ? & ?) & ->).
  exists dd, m, y. rewrite app_nil_r. by repeat split.
Qed.

Lemma denotes_NUM_RE n :
  denotes NUM_RE n →
  some_of is_digit n
  ∨ ∃ whole frac, n = whole ++ [46] ++ frac
      ∧ some_of is_digit whole ∧ some_of is_digit frac.
Proof.
  unfold NUM_RE, digits, wb. simpl.
  intros (? & ? & -> & -> & whole & ? & -> & (Hw & Hlw & _) & ? & ? & ->
          & [->|(? & frac & -> & -> & (Hf & Hlf & _))] & ->).
  - left. simpl. rewrite !app_nil_r. split; [done|].
    intros ->. simpl in Hlw. lia.
  - right. exists whole, frac. simpl. rewrite app_nil_r.
    repeat split; [done| |done|]; intros ->; simpl in *; lia.
Qed.

Lemma denotes_EMAIL_RE e :
  denotes EMAIL_RE e →
  ∃ local domain tld, e = local ++ [AT_SIGN] ++ domain ++ [DOT] ++ tld
    ∧ some_of EMAIL_LOCAL local ∧ some_of EMAIL_DOMAIN domain
    ∧ Forall (λ c, ascii_alpha c = true) tld ∧ (2 ≤ length tld)%nat.
Proof.
  unfold EMAIL_RE. simpl.
  intros (local & ? & -> & (Hl & Hll & _) & ? & ? & -> & -> & domain & ?
          & -> & (Hd & Hld & _) & ? & tld & -> & -> & (Ht & Hlt & _)).
  exists local, domain, tld.
  repeat split; [done| |done| |done|done]; intros ->; simpl in *; lia.
Qed.




End ExtractorsMore.

Section ExtractorTheorems.
Variables isdecimal_beyond_ascii isalnum_beyond_ascii : Z → bool.

Lemma findall_occurs r text g :
  g ∈ findall r text → occurs_in g text ∧ denotes r g.
Proof.
  intros (m & Hm & ->)%findall_match.
  apply finditer_match in Hm as (before & after & ? & _ & _ & ? & _).
  split; [by exists before, after|done].
Qed.

Lemma finditer_nil_iff r text :
  finditer r text = [] ↔ findall r text = [].
Proof.
  unfold findall. split; [by intros ->|]. by destruct (finditer r text).
Qed.

Lemma some_of_head cls s :
  some_of cls s → ∃ c, head s = Some c ∧ cls c = true.
Proof.
  intros [Hall Hne]. destruct s as [|c s]; [done|].
  exists c. split; [done|]. by apply Forall_cons in Hall as [? _].
Qed.


Lemma extracted_numbers_matches text n :
  n ∈ extract_numbers_excluding_dates
        isdecimal_beyond_ascii isalnum_beyond_ascii text →
  ∃ m, m ∈ finditer (NUM_RE isdecimal_beyond_ascii isalnum_beyond_ascii) text
       ∧ n = m_group m.
Proof.
  unfold extract_numbers_excluding_dates. rewrite number_loop.
  intros (m & -> & Hm)%list_elem_of_fmap.
  apply list_elem_of_filter in Hm as [_ Hm]. by exists m.
Qed.

End ExtractorTheorems.

(** X11: the spans that [_find_spans] returns lie within the text, come in
    increasing order without overlap, and each one is the place of the
    corresponding match of [findall]: the match is the slice of the text
    between the two offsets. *)
Theorem find_spans_in_bounds (pattern : regex) (text : list Z) :
  let spans := _find_spans pattern text in
  Forall (λ span, 0 ≤ span.1 ≤ span.2 ∧ span.2 ≤ Z.of_nat (length text)) spans
  ∧ StronglySorted (λ span1 span2, span1.2 ≤ span2.1) spans
  ∧ length spans = length (findall pattern text)
  ∧ ∀ (i : nat) span, spans !! i = Some span →
      findall pattern text !! i = Some (slice text span.1 span.2).
Proof.
  intros spans. unfold spans, _find_spans, findall. clear spans.
  change (map ?f ?l) with (f <$> l).
  split; [|split; [|split]].
  - apply Forall_fmap, Forall_forall. intros m Hm.
    apply finditer_match in Hm as (before & after & Htext & Hs & He & _).
    simpl. rewrite He, Hs, Htext, !length_app. lia.
  - apply (StronglySorted_fmap _ (λ m1 m2, m_end m1 ≤ m_start m2));
      [done|]. apply finditer_from_ordered.
  - by rewrite !length_fmap.
  - intros i span. rewrite !list_lookup_fmap.
    destruct (finditer pattern text !! i) as [m|] eqn:E; [|done].
    simpl. intros [= <-]. f_equal.
    apply list_elem_of_lookup_2, finditer_match in E
      as (before & after & Htext & Hs & He & _).
    unfold slice. simpl. rewrite He, Hs, Htext.
    replace (Z.to_nat (Z.of_nat (length before))) with (length before) by lia.
    rewrite drop_app_length.
    replace (Z.to_nat (_ - _)) with (length (m_group m)) by lia.
    by rewrite take_app_length.
Qed.

(** X12: every date returned is a piece of the text of one of the two
    shapes: four digits, a hyphen, two digits, a hyphen, two digits; or one
    or two digits, a slash, one or two digits, a slash, four digits.  The
    values of the fields are not checked. *)
Theorem extract_dates_shape
    (isdecimal_beyond_ascii isalnum_beyond_ascii : Z → bool) (text : list Z) :
  let digit := is_digit isdecimal_beyond_ascii in
  Forall
    (λ d, occurs_in d text
          ∧ ((∃ y m dd, d = y ++ [45] ++ m ++ [45] ++ dd
                ∧ digit_string digit 4 4 y ∧ digit_string digit 2 2 m
                ∧ digit_string digit 2 2 dd)
             ∨ (∃ dd m y, d = dd ++ [47] ++ m ++ [47] ++ y
                  ∧ digit_string digit 1 2 dd ∧ digit_string digit 1 2 m
                  ∧ digit_string digit 4 4 y)))
    (extract_dates isdecimal_beyond_ascii isalnum_beyond_ascii text).
Proof.
  intros digit. unfold extract_dates. apply Forall_app. split;
    apply Forall_forall; intros d [Hocc Hden]%findall_occurs; (split; [done|]).
  - left. by apply (denotes_DATE_ISO _ isalnum_beyond_ascii).
  - right. by apply (denotes_DATE_SL _ isalnum_beyond_ascii).
Qed.

(** X13: the numbers returned are some of the matches of the number
    pattern, in their order, and each is a non-empty string of digits,
    possibly followed by one dot and a second non-empty string of digits;
    no sign, no exponent and no thousands separator is ever part of a
    number. *)
Theorem extract_numbers_shape
    (isdecimal_beyond_ascii isalnum_beyond_ascii : Z → bool) (text : list Z) :
  let digit := is_digit isdecimal_beyond_ascii in
  let numbers :=
    extract_numbers_excluding_dates
      isdecimal_beyond_ascii isalnum_beyond_ascii text in
  numbers `sublist_of`
    findall (NUM_RE isdecimal_beyond_ascii isalnum_beyond_ascii) text
  ∧ Forall
      (λ n, occurs_in n text
            ∧ (some_of digit n
               ∨ ∃ whole frac, n = whole ++ [DOT] ++ frac
                   ∧ some_of digit whole ∧ some_of digit frac))
      numbers.
Proof.
  intros digit numbers. split.
  - unfold numbers, extract_numbers_excluding_dates, findall.
    rewrite number_loop. apply (fmap_sublist m_group), sublist_filter.
  - apply Forall_forall. intros n (m & Hm & ->)%extracted_numbers_matches.
    assert (Hg : m_group m ∈ findall
      (NUM_RE isdecimal_beyond_ascii isalnum_beyond_ascii) text)
      by (apply list_elem_of_fmap; by exists m).
    apply findall_occurs in Hg as [Hocc Hden]. split; [done|].
    by apply (denotes_NUM_RE _ isalnum_beyond_ascii).
Qed.

(** X14: every e-mail address returned is a piece of the text of the shape
    local part, [@], domain, dot, top-level part, where the local part and
    the domain are non-empty and made of the characters the pattern allows
    and the top-level part is at least two ASCII letters. *)
Theorem extract_emails_shape (text : list Z) :
  Forall
    (λ e, occurs_in e text
          ∧ ∃ local domain tld,
              e = local ++ [AT_SIGN] ++ domain ++ [DOT] ++ tld
              ∧ some_of EMAIL_LOCAL local ∧ some_of EMAIL_DOMAIN domain
              ∧ Forall (λ c, ascii_alpha c = true) tld
              ∧ (2 ≤ length tld)%nat)
    (extract_emails text).
Proof.
  apply Forall_forall. intros e [Hocc Hden]%findall_occurs.
  split; [done|]. by apply denotes_EMAIL_RE.
Qed.

Section ExtractorEdges.
Variables isdecimal_beyond_ascii isalnum_beyond_ascii : Z → bool.


Local Abbreviation is_digit := (is_digit isdecimal_beyond_ascii).
Local Abbreviation is_word := (is_word isalnum_beyond_ascii).
Local Abbreviation DATE_ISO := (DATE_ISO isdecimal_beyond_ascii isalnum_beyond_ascii).
Local Abbreviation DATE_SL := (DATE_SL isdecimal_beyond_ascii isalnum_beyond_ascii).
Local Abbreviation NUM_RE := (NUM_RE isdecimal_beyond_ascii isalnum_beyond_ascii).

(** A pattern whose matches all hold a character of some kind finds
    nothing in a text without such a character. *)
Lemma findall_needs (P : Z → Prop) r text :
  (∀ g, denotes r g → ∃ c, c ∈ g ∧ P c) →
  (∀ c, c ∈ text → ¬ P c) →
  findall r text = [].
Proof.
  intros Hneeds Hnone. destruct (findall r text) as [|g l] eqn:E; [done|].
  assert (Hg : g ∈ findall r text) by (rewrite E; left).
  apply findall_occurs in Hg as [(before & after & ->) Hden].
  destruct (Hneeds g Hden) as (c & Hc & HP).
  destruct (Hnone c); [|done]. rewrite !elem_of_app. auto.
Qed.

Lemma digit_string_head lo hi s :
  (1 ≤ lo)%nat → digit_string is_digit lo hi s → some_of is_digit s.
Proof. intros Hlo [Hall Hlen]. split; [done|]. intros ->. simpl in Hlen. lia. Qed.

Lemma some_of_elem cls s : some_of cls s → ∃ c, c ∈ s ∧ cls c = true.
Proof.
  intros (c & Hc & ?)%some_of_head. exists c. split; [|done].
  destruct s; [done|]. injection Hc as ->. left.
Qed.

Lemma DATE_ISO_has_digit g :
  denotes DATE_ISO g → ∃ c, c ∈ g ∧ is_digit c = true.
Proof.
  intros (y & m & dd & -> & Hy & _)%denotes_DATE_ISO.
  apply (digit_string_head 4 4), some_of_elem in Hy as (c & ? & ?); [|lia].
  exists c. split; [|done]. apply elem_of_app. by left.
Qed.

Lemma DATE_SL_has_digit g :
  denotes DATE_SL g → ∃ c, c ∈ g ∧ is_digit c = true.
Proof.
  intros (dd & m & y & -> & Hd & _)%denotes_DATE_SL.
  apply (digit_string_head 1 2), some_of_elem in Hd as (c & ? & ?); [|lia].
  exists c. split; [|done]. apply elem_of_app. by left.
Qed.

Lemma NUM_RE_has_digit g :
  denotes NUM_RE g → ∃ c, c ∈ g ∧ is_digit c = true.
Proof.
  intros [Hn|(whole & frac & -> & Hw & _)]%denotes_NUM_RE.
  - by apply some_of_elem.
  - apply some_of_elem in Hw as (c & ? & ?). exists c. split; [|done].
    apply elem_of_app. by left.
Qed.







End ExtractorEdges.

(** X15: in a text without any date the numbers returned are all the
    matches of the number pattern. *)
Theorem extract_numbers_without_dates
    (isdecimal_beyond_ascii isalnum_beyond_ascii : Z → bool) (text : list Z) :
  extract_dates isdecimal_beyond_ascii isalnum_beyond_ascii text = [] →
  extract_numbers_excluding_dates isdecimal_beyond_ascii isalnum_beyond_ascii text
  = findall (NUM_RE isdecimal_beyond_ascii isalnum_beyond_ascii) text.
Proof.
  unfold extract_dates. intros [Hiso Hsl]%app_eq_nil.
  apply finditer_nil_iff in Hiso, Hsl.
  unfold extract_numbers_excluding_dates, _find_spans, findall.
  rewrite number_loop, Hiso, Hsl. simpl. f_equal.
  apply filter_Forall_id, Forall_forall. intros m _ Hex.
  by apply Exists_nil in Hex.
Qed.

(** X15 on a text with two numbers and no date. *)
Lemma extract_numbers_without_dates_witness :
  extract_dates (λ _, false) (λ _, false) (ascii_str "12 and 3.5") = []
  ∧ extract_numbers_excluding_dates (λ _, false) (λ _, false)
      (ascii_str "12 and 3.5")
    = findall (NUM_RE (λ _, false) (λ _, false)) (ascii_str "12 and 3.5").
Proof.
  assert (Hnone : extract_dates (λ _, false) (λ _, false)
                    (ascii_str "12 and 3.5") = [])
    by (vm_compute; reflexivity).
  split; [exact Hnone|].
  exact (extract_numbers_without_dates _ _ _ Hnone).
Defined.

(** X16: an extractor finds nothing in a text that lacks the characters
    its pattern needs: no e-mail address without an [@] or without a dot,
    and neither a date nor a number without a digit; in particular the
    three lists are empty for the empty text. *)
Theorem extractors_on_texts_without_their_characters
    (isdecimal_beyond_ascii isalnum_beyond_ascii : Z → bool) (text : list Z) :
  let extract_dates :=
    extract_dates isdecimal_beyond_ascii isalnum_beyond_ascii in
  let extract_numbers_excluding_dates :=
    extract_numbers_excluding_dates isdecimal_beyond_ascii isalnum_beyond_ascii in
  ((AT_SIGN ∉ text) ∨ (DOT ∉ text) → extract_emails text = [])
  ∧ (Forall (λ c, is_digit isdecimal_beyond_ascii c = false) text →
     extract_dates text = [] ∧ extract_numbers_excluding_dates text = [])
  ∧ extract_emails [] = [] ∧ extract_dates [] = []
  ∧ extract_numbers_excluding_dates [] = [].
Proof.
  intros extract_dates' extract_numbers'.
  split; [|split; [|by repeat split]].
  - intros [Hno|Hno].
    + apply (findall_needs (λ c, c = AT_SIGN)).
      * intros g (local & domain & tld & -> & _)%denotes_EMAIL_RE.
        exists AT_SIGN. split; [|done].
        rewrite !elem_of_app, !elem_of_cons. auto 10.
      * by intros c Hc ->.
    + apply (findall_needs (λ c, c = DOT)).
      * intros g (local & domain & tld & -> & _)%denotes_EMAIL_RE.
        exists DOT. split; [|done].
        rewrite !elem_of_app, !elem_of_cons. auto 10.
      * by intros c Hc ->.
  - intros Hnone. rewrite Forall_forall in Hnone.
    assert (Hno : ∀ c, c ∈ text → ¬ is_digit isdecimal_beyond_ascii c = true)
      by (intros c Hc; rewrite (Hnone c Hc); done).
    assert (Hiso := findall_needs _ _ _
      (DATE_ISO_has_digit isdecimal_beyond_ascii isalnum_beyond_ascii) Hno).
    assert (Hsl := findall_needs _ _ _
      (DATE_SL_has_digit isdecimal_beyond_ascii isalnum_beyond_ascii) Hno).
    assert (Hnum := findall_needs _ _ _
      (NUM_RE_has_digit isdecimal_beyond_ascii isalnum_beyond_ascii) Hno).
    split.
    + unfold extract_dates', extract_dates. by rewrite Hiso, Hsl.
    + unfold extract_numbers', extract_numbers_excluding_dates.
      apply finditer_nil_iff in Hnum. by rewrite Hnum.
Qed.



Section CountsMore.
Context {K : Type} `{EqDecision K}.

Lemma occurrences_cons (x y : K) l :
  occurrences x (y :: l) = (if decide (y = x) then 1 else 0) + occurrences x l.
Proof.
  unfold occurrences. rewrite filter_cons.
  destruct (decide (y = x)); simpl; lia.
Qed.

Lemma occurrences_le_length (x : K) l : occurrences x l ≤ Z.of_nat (length l).
Proof.
  unfold occurrences. apply inj_le, sublist_length, sublist_filter.
Qed.

Lemma total_count_perm (l1 l2 : list (K * Z)) :
  l1 ≡ₚ l2 → total_count l1 = total_count l2.
Proof. induction 1; simpl in *; lia. Qed.

Lemma total_count_app (l1 l2 : list (K * Z)) :
  total_count (l1 ++ l2) = total_count l1 + total_count l2.
Proof. induction l1 as [|x l1 IH]; simpl in *; lia. Qed.

Lemma total_count_nonneg (l : list (K * Z)) :
  Forall (λ item, 0 ≤ item.2) l → 0 ≤ total_count l.
Proof. induction 1; simpl in *; lia. Qed.

End CountsMore.

Lemma pair_count_le {A} `{EqDecision A} (a b : A) (l : list A) :
  occurrences (a, b) (adjacent_pairs l) ≤ occurrences a l
  ∧ occurrences (a, b) (adjacent_pairs l) ≤ occurrences b (tail l).
Proof.
  induction l as [|x l IH]; [done|].
  destruct l as [|y l]; [simpl; split; [apply occurrences_nonneg|done]|].
  change (adjacent_pairs (x :: y :: l)) with ((x, y) :: adjacent_pairs (y :: l)).
  destruct IH as [IH1 IH2]. simpl tail in *.
  rewrite (occurrences_cons (a, b)), (occurrences_cons a x), (occurrences_cons b y).
  repeat case_decide; simplify_eq; lia.
Qed.

Section CollocationsMore.
Variable math_log2 : positive → spec_float.

Lemma scored_member tokens min_freq bg s :
  (bg, s) ∈ sorted (λ x y, key_ltb math_log2 y x)
              (map (λ bg, (bg, pmi_of tokens bg))
                 (FreqDist_iter (frequent_pairs tokens (Z.max 1 min_freq)))) ↔
    s = pmi_of tokens bg ∧ bg ∈ adjacent_pairs tokens
    ∧ min_freq ≤ occurrences bg (adjacent_pairs tokens).
Proof.
  rewrite sorted_perm. split.
  - intros (bg' & [= -> ->] & Hin)%list_elem_of_fmap.
    rewrite FreqDist_iter_perm in Hin.
    apply frequent_pairs_key in Hin as [? ?]. repeat split; [done|lia].
  - intros (-> & Hin & Hmin). apply list_elem_of_fmap. exists bg.
    split; [done|]. rewrite FreqDist_iter_perm. apply frequent_pairs_key.
    split; [done|]. apply occurrences_pos in Hin. lia.
Qed.

Lemma scored_length tokens min_freq :
  (length (sorted (λ x y, key_ltb math_log2 y x)
             (map (λ bg, (bg, pmi_of tokens bg))
                (FreqDist_iter (frequent_pairs tokens min_freq))))
   ≤ length tokens - 1)%nat.
Proof.
  rewrite <- (length_fmap fst), scored_pairs_perm.
  pose proof (frequent_pairs_NoDup tokens min_freq) as Hnd.
  assert (Hsub : (frequent_pairs tokens min_freq).*1 ⊆+ adjacent_pairs tokens).
  { apply NoDup_submseteq; [done|]. intros bg Hbg.
    by apply frequent_pairs_key in Hbg as [? _]. }
  apply submseteq_length in Hsub. rewrite adjacent_pairs_length in Hsub. lia.
Qed.

Local Open Scope R_scope.

Lemma log2R_le x y : 0 < x → x <= y → log2R x <= log2R y.
Proof.
  intros Hx [Hlt| ->]; [|lra]. left. by apply log2R_increasing.
Qed.

Lemma log2R_mult x y : 0 < x → 0 < y → log2R (x * y) = log2R x + log2R y.
Proof.
  intros Hx Hy. unfold log2R. rewrite ln_mult by done.
  pose proof ln2_pos. field. lra.
Qed.

Lemma pmi_of_bounds (tokens : list (list Z)) (bg : list Z * list Z) :
  bg ∈ adjacent_pairs tokens →
  - log2R (IZR (Z.of_nat (length tokens))) <= score_value (pmi_of tokens bg)
  ∧ score_value (pmi_of tokens bg) <= log2R (IZR (Z.of_nat (length tokens))).
Proof.
  intros Hbg. destruct bg as [w1 w2].
  pose proof (pair_count_le w1 w2 tokens) as [Hc1 Hc2].
  pose proof (occurrences_le_length w1 tokens) as Hl1.
  pose proof (occurrences_le_length w2 tokens) as Hl2.
  assert (Hc2' : (occurrences w2 (tail tokens) ≤ occurrences w2 tokens)%Z).
  { destruct tokens as [|t tokens]; [done|]. simpl.
    rewrite (occurrences_cons w2 t). case_decide; lia. }
  apply occurrences_pos in Hbg.
  set (c := occurrences (w1, w2) (adjacent_pairs tokens)) in *.
  set (c1 := occurrences w1 tokens) in *.
  set (c2 := occurrences w2 tokens) in *.
  set (L := Z.of_nat (length tokens)) in *.
  unfold score_value, pmi_of. cbn [log2_arg minus_log2_arg fst snd].
  fold c c1 c2 L.
  assert (0 < c * L)%Z by nia. assert (0 < c1 * c2)%Z by nia.
  assert (0 < L)%Z by nia.
  rewrite !Z2Pos.id by done.
  assert (HL : 0 < IZR L) by (by apply IZR_lt).
  assert (H12 : 0 < IZR (c1 * c2)) by (by apply IZR_lt).
  assert (HcL : 0 < IZR (c * L)) by (by apply IZR_lt).
  split.
  - assert (log2R (IZR (c1 * c2)) <= log2R (IZR (c * L)) + log2R (IZR L)); [|lra].
    rewrite <- log2R_mult by done. apply log2R_le; [done|].
    rewrite <- mult_IZR. apply IZR_le.
    assert (c1 * c2 ≤ L * L)%Z by nia. assert (L * L ≤ c * L * L)%Z by nia.
    lia.
  - assert (log2R (IZR (c * L)) <= log2R (IZR L) + log2R (IZR (c1 * c2))); [|lra].
    rewrite <- log2R_mult by done. apply log2R_le; [done|].
    rewrite <- mult_IZR. apply IZR_le.
    assert (1 ≤ c2)%Z by lia. assert (c ≤ c1 * c2)%Z by nia.
    rewrite (Z.mul_comm c L). apply Z.mul_le_mono_nonneg_l; lia.
Qed.

End CollocationsMore.

(** X18: a PMI score is never outside [[-log2 L, log2 L]], where [L] is the
    number of tokens, and at most [L - 1] pairs are scored. *)
Theorem pmi_bounds (math_log2 : positive → spec_float)
    (tokens : list (list Z)) (minFreq : Z) :
  ∃ scored,
    collocations math_log2 tokens minFreq = Returns scored
    ∧ (length scored ≤ length tokens - 1)%nat
    ∧ Forall
        (λ item,
           (- log2R (IZR (Z.of_nat (length tokens))) <= score_value item.2
            ∧ score_value item.2 <= log2R (IZR (Z.of_nat (length tokens))))%R)
        scored.
Proof.
  eexists. split; [apply collocations_scored|].
  split; [apply scored_length|].
  apply Forall_forall. intros [bg s] (-> & Hbg & _)%scored_member.
  by apply pmi_of_bounds.
Qed.

(** X19: the minimum frequency only selects: the pairs scored with a
    minimum frequency are the pairs scored with minimum frequency 1 whose
    count reaches it, with the same scores (counts and totals are those of
    the unfiltered sequence), and any minimum frequency of 1 or less gives
    the same list as 1. *)
Theorem min_freq_only_selects (math_log2 : positive → spec_float)
    (tokens : list (list Z)) (minFreq : Z) :
  ∃ all scored,
    collocations math_log2 tokens 1 = Returns all
    ∧ collocations math_log2 tokens minFreq = Returns scored
    ∧ (∀ bg s, (bg, s) ∈ scored ↔
         (bg, s) ∈ all ∧ minFreq ≤ occurrences bg (adjacent_pairs tokens))
    ∧ (minFreq ≤ 1 → scored = all).
Proof.
  eexists _, _. split; [apply collocations_scored|].
  split; [apply collocations_scored|]. split.
  - intros bg s. rewrite !scored_member. split.
    + intros (-> & Hin & Hmin). repeat split; try done.
      apply occurrences_pos in Hin. lia.
    + intros ((-> & Hin & _) & Hmin). done.
  - intros Hle. by replace (Z.max 1 minFreq) with (Z.max 1 1) by lia.
Qed.

(** X20: the counts of the frequency list add up to at most the number of
    tokens, and to exactly that number when [k] is at least the number of
    distinct tokens: every token is counted once. *)
Theorem top_frequent_total (tokens : list (list Z)) (k : Z) :
  total_count (top_frequent tokens k) ≤ Z.of_nat (length tokens)
  ∧ (Z.of_nat (length (remove_dups tokens)) ≤ k →
     total_count (top_frequent tokens k) = Z.of_nat (length tokens)).
Proof.
  unfold top_frequent. rewrite most_common_take.
  assert (Hall : total_count (ranking tokens) = Z.of_nat (length tokens)).
  { rewrite (total_count_perm _ _ (ranking_perm tokens)).
    apply (FreqDist_N_Counter tokens). }
  split.
  - rewrite <- Hall.
    rewrite <- (take_drop (Z.to_nat k) (ranking tokens)) at 2.
    rewrite total_count_app.
    assert (0 ≤ total_count (drop (Z.to_nat k) (ranking tokens))); [|lia].
    apply total_count_nonneg, Forall_forall. intros [t c] Hin.
    apply elem_of_sublist with (l2 := ranking tokens) in Hin;
      [|apply sublist_drop].
    apply ranking_entry in Hin as [_ ->]. apply occurrences_nonneg.
  - intros Hk. rewrite take_ge; [done|].
    rewrite <- (length_fmap fst), (ranking_keys tokens). lia.
Qed.

(** X21: stemming gives one stem per token, in order, whatever the stemmer;
    with a kind other than ["isri"] and ["snowball"] there is no stemmer and
    the tokens are passed through unchanged. *)
Theorem stem_tokens_one_to_one
    (ISRIStemmer_stem SnowballStemmer_stem : list Z → list Z)
    (kind : list Z) (tokens : list (list Z)) :
  let stems :=
    stem_tokens tokens (make_stemmer ISRIStemmer_stem SnowballStemmer_stem kind) in
  length stems = length tokens
  ∧ (kind ≠ ascii_str "isri" → kind ≠ ascii_str "snowball" → stems = tokens)
  ∧ (kind = ascii_str "isri" →
     ∀ i : nat, stems !! i = ISRIStemmer_stem <$> tokens !! i)
  ∧ (kind = ascii_str "snowball" →
     ∀ i : nat, stems !! i = SnowballStemmer_stem <$> tokens !! i).
Proof.
  intros stems. unfold stems, make_stemmer, stem_tokens. clear stems.
  repeat case_bool_decide; subst; simpl;
    (split; [by rewrite ?length_map|]); (split; [done|]);
    split; intros; try done; apply list_lookup_fmap.
Qed.

Section MainMore.
Variable AR_STOPWORDS_RAW : gset (list Z).
Variables ISRIStemmer_stem SnowballStemmer_stem : list Z → list Z.
Variables isdecimal_beyond_ascii isalnum_beyond_ascii : Z → bool.
Variable math_log2 : positive → spec_float.
Variable read_file : list Z → option (list Z).

Local Abbreviation run_pipeline :=
  (pipeline AR_STOPWORDS_RAW ISRIStemmer_stem SnowballStemmer_stem
     isdecimal_beyond_ascii isalnum_beyond_ascii math_log2).

(** The pipeline never raises: the report it returns. *)
Lemma pipeline_returns raw args :
  ∃ report,
    run_pipeline raw args = Returns report
    ∧ report_raw report = raw
    ∧ report_tokens report
      = tokenize_ar (normalize_arabic raw (negb (args_keep_ta_marbuta args)))
    ∧ report_no_stop report
      = remove_stopwords (report_tokens report)
          (build_stopwords AR_STOPWORDS_RAW (negb (args_keep_ta_marbuta args))
             (args_extra_stop args))
          (args_min_len args)
    ∧ report_stems report
      = stem_tokens (report_no_stop report)
          (make_stemmer ISRIStemmer_stem SnowballStemmer_stem (args_stem args))
    ∧ report_freq report = top_frequent (report_no_stop report) (args_topk args)
    ∧ report_min_freq report = Z.max 1 (args_min_freq args)
    ∧ collocations math_log2 (report_no_stop report) (args_min_freq args)
      = Returns (report_scored report)
    ∧ report_top_scored report = take 10 (report_scored report).
Proof.
  unfold pipeline.
  destruct (collocations _ _ (args_min_freq args)) as [scored|] eqn:E.
  - eexists. split; [reflexivity|]. by simpl.
  - by rewrite collocations_scored in E.
Qed.


End MainMore.


(** X23: the tokens that survive in the pipeline are tokens of the
    normalized text that are in normal form under the policy of the run,
    are not the normal form of any word of the lexicon nor of any extra
    stopword, and have at least the minimum length: the stopword test
    compares like with like. *)
Theorem pipeline_policy_consistent
    (AR_STOPWORDS_RAW : gset (list Z))
    (ISRIStemmer_stem SnowballStemmer_stem : list Z → list Z)
    (isdecimal_beyond_ascii isalnum_beyond_ascii : Z → bool)
    (math_log2 : positive → spec_float)
    (raw : list Z) (args : Namespace) :
  let policy := negb (args_keep_ta_marbuta args) in
  ∃ report,
    pipeline AR_STOPWORDS_RAW ISRIStemmer_stem SnowballStemmer_stem
      isdecimal_beyond_ascii isalnum_beyond_ascii math_log2 raw args
    = Returns report
    ∧ Forall
        (λ t, t ∈ report_tokens report
              ∧ normalize_arabic t policy = t
              ∧ (∀ w, w ∈ AR_STOPWORDS_RAW → t ≠ normalize_arabic w policy)
              ∧ (∀ piece, piece ∈ split COMMA (args_extra_stop args) →
                          strip piece ≠ [] →
                          t ≠ normalize_arabic (strip piece) policy)
              ∧ args_min_len args ≤ Z.of_nat (length t))
        (report_no_stop report).
Proof.
  intros policy.
  destruct (pipeline_returns AR_STOPWORDS_RAW ISRIStemmer_stem
              SnowballStemmer_stem isdecimal_beyond_ascii
              isalnum_beyond_ascii math_log2 raw args)
    as (report & Hrun & _ & Htok & Hno & _).
  exists report. split; [done|].
  rewrite Hno, remove_stopwords_filter. apply Forall_forall.
  intros t [[Hstop Hlen] Hin]%list_elem_of_filter.
  split; [done|]. split; [|split; [|split; [|done]]].
  - rewrite Htok in Hin. apply tokens_normalized in Hin.
    by apply normalize_arabic_fixed.
  - intros w Hw ->. apply Hstop, elem_of_build_stopwords. left. by exists w.
  - intros piece Hp Hne ->. apply Hstop, elem_of_build_stopwords.
    right. by exists piece.
Qed.

(** X24: asking for more entries only adds entries at the end: the
    frequency list for [k] is the beginning of the frequency list for any
    larger [k']. *)
Theorem top_frequent_prefix (tokens : list (list Z)) (k k' : Z) :
  k ≤ k' →
  top_frequent tokens k = take (Z.to_nat k) (top_frequent tokens k').
Proof.
  intros Hk. unfold top_frequent. rewrite !most_common_take, take_take.
  f_equal. lia.
Qed.

(** X24 for two and three entries. *)
Lemma top_frequent_prefix_witness :
  2 ≤ 3
  ∧ top_frequent (map ascii_str ["b"; "a"; "b"; "c"]%string) 2
    = take (Z.to_nat 2)
        (top_frequent (map ascii_str ["b"; "a"; "b"; "c"]%string) 3).
Proof.
  assert (H : 2 ≤ 3) by lia.
  split; [exact H|]. exact (top_frequent_prefix _ 2 3 H).
Defined.

Section MarksInsideWords.

Lemma deleted_char_not_letter c : deleted_char c = true → AR_LETTER c = false.
Proof.
  intros H. destruct (AR_LETTER c) eqn:E; [|done]. exfalso.
  unfold deleted_char, AR_DIACRITICS, AR_TATWEEL, AR_LETTER, in_range in *.
  rewrite !orb_true_iff, !andb_true_iff, !Z.leb_le in E.
  rewrite !orb_true_iff, !andb_true_iff, !Z.leb_le, Z.eqb_eq in H. lia.
Qed.

Lemma deleted_char_vanishes p c :
  deleted_char c = true → normalize_char p c = [].
Proof.
  intros H. apply nil_length_inv. by rewrite normalize_char_length, H.
Qed.

End MarksInsideWords.

(** X25: a diacritic or a tatweel inside a word splits the word when the
    raw text is tokenized, but not once the text is normalized: the
    normalized text, and so its tokens, are those of the text without the
    mark. *)
Theorem marks_do_not_split_normalized_words (s t : list Z) (c : Z) (p : bool) :
  deleted_char c = true →
  tokenize_ar (s ++ c :: t) = tokenize_ar s ++ tokenize_ar t
  ∧ normalize_arabic (s ++ c :: t) p = normalize_arabic (s ++ t) p
  ∧ tokenize_ar (normalize_arabic (s ++ c :: t) p)
    = tokenize_ar (normalize_arabic (s ++ t) p).
Proof.
  intros Hc.
  assert (Hnorm : normalize_arabic (s ++ c :: t) p = normalize_arabic (s ++ t) p).
  { rewrite !normalize_arabic_app, normalize_arabic_cons.
    by rewrite deleted_char_vanishes. }
  split; [|by rewrite Hnorm].
  rewrite !tokenize_ar_runs.
  by apply runs_from_separator, deleted_char_not_letter.
Qed.

(** X25 on a word with a tatweel in the middle. *)
Lemma marks_do_not_split_normalized_words_witness :
  deleted_char 0x0640 = true
  ∧ tokenize_ar (normalize_arabic ([0x0628; 0x0627] ++ 0x0640 :: [0x0628]) true)
    = [[0x0628; 0x0627; 0x0628]].
Proof.
  assert (H : deleted_char 0x0640 = true) by reflexivity.
  split; [exact H|].
  rewrite (proj2 (proj2 (marks_do_not_split_normalized_words
                           [0x0628; 0x0627] [0x0628] 0x0640 true H))).
  reflexivity.
Defined.
